(** * pyglm: the Gibbs / Metropolis-Hastings update rules of [inference/gibbs.py]

    A shallow embedding of the sampler's update rules and of the sweep
    driver.  Numbers are numpy's float64, modelled by the kernel's binary64
    floats; numpy arrays are a shape together with their row-major data; the
    nested state dictionary [x] is a record; Python exceptions are an error
    result; the global random generator, the debugger stops and the objects
    shared between the trajectory and the live state are explicit. *)

From Stdlib Require Import Floats ZArith Lia.
From Stdlib Require Uint63.
From stdpp Require Import base option list.

Set Default Proof Using "Type".
#[local] Set Warnings "-inexact-float".

(** ** numpy float64 *)

Module np.

Local Open Scope float_scope.

Definition Inf : float := infinity.
Definition pi : float := 0x1.921fb54442d18p+1.
Definition isnan (a : float) : bool := is_nan a.
Definition isfinite (a : float) : bool := is_finite a.
Definition sqrt (a : float) : float := PrimFloat.sqrt a.

(** Elementwise arithmetic on 1-d arrays of equal length, and an array
    combined with a scalar. *)
Definition add (a b : list float) : list float := zip_with PrimFloat.add a b.
Definition sub (a b : list float) : list float := zip_with PrimFloat.sub a b.
Definition adds (a : list float) (c : float) : list float := (fun v => v + c) <$> a.
Definition subs (a : list float) (c : float) : list float := (fun v => v - c) <$> a.
Definition muls (c : float) (a : list float) : list float := (fun v => c * v) <$> a.
Definition divs (a : list float) (c : float) : list float := (fun v => v / c) <$> a.
Definition square (a : list float) : list float := (fun v => v * v) <$> a.

Definition zeros (n : nat) : list float := replicate n 0.

(** Slices [a[1:]], [a[:-1]], [a[i:i+2]] and [a[:i]]. *)
Definition from1 {T} (a : list T) : list T := drop 1 a.
Definition butlast {T} (a : list T) : list T := take (length a - 1) a.
Definition pair_at {T} (i : nat) (a : list T) : list T := take 2 (drop i a).
Definition upto {T} (i : nat) (a : list T) : list T := take i a.

End np.

(** The transcendental and interpolation routines of numpy and scipy are a
    library outside the repository: the update rules are written over any
    implementation of them. *)
Class NumLib := {
  np_log : float -> float;
  np_exp : float -> float;
  logsumexp : list float -> float;
  np_interp : float -> list float -> list float -> float
}.

(** ** Python exceptions *)

Inductive exn : Set :=
| IndexError
| KeyError
| ValueError
| AttributeError
| AssertionError
| Exception.

Inductive result (T : Type) : Type :=
| Ok (v : T)
| Raise (e : exn).
Arguments Ok {T} v.
Arguments Raise {T} e.

Global Instance result_ret : MRet result := fun _ v => Ok v.
Global Instance result_bind : MBind result := fun _ _ f m =>
  match m with
  | Ok v => f v
  | Raise e => Raise e
  end.

Definition or_raise {T} (e : exn) (o : option T) : result T :=
  match o with
  | Some v => Ok v
  | None => Raise e
  end.

(** ** numpy arrays *)

Record ndarray (T : Type) : Type := mk_ndarray {
  shape : list nat;
  data : list T
}.
Arguments mk_ndarray {T} shape data.
Arguments shape {T} _.
Arguments data {T} _.

Definition size_of (sh : list nat) : nat := foldr Nat.mul 1 sh.

(** Row-major offset of [a[i, j]] in a 2-d array; [None] is IndexError. *)
Definition offset2 (sh : list nat) (i j : nat) : option nat :=
  match sh with
  | [r; c] => if decide (i < r /\ j < c) then Some (i * c + j) else None
  | _ => None
  end.

Definition get2 {T} (a : ndarray T) (i j : nat) : result T :=
  or_raise IndexError (k ← offset2 (shape a) i j; data a !! k).

Definition set2 {T} (a : ndarray T) (i j : nat) (v : T) : result (ndarray T) :=
  k ← or_raise IndexError (offset2 (shape a) i j);
  if decide (k < length (data a))
  then Ok (mk_ndarray (shape a) (<[k := v]> (data a)))
  else Raise IndexError.

(** [a.reshape(sh)]: a view on the same data; ValueError when the sizes
    differ. *)
Definition reshape {T} (a : ndarray T) (sh : list nat) : result (ndarray T) :=
  if decide (size_of sh = length (data a))
  then Ok (mk_ndarray sh (data a))
  else Raise ValueError.

Definition ravel {T} (a : ndarray T) : ndarray T :=
  mk_ndarray [length (data a)] (data a).

(** ** The parameter state [x] *)

Record Graph : Type := mk_Graph {
  graph_A : option (ndarray Z);
  graph_L : option (ndarray float)
}.

Record Weights : Type := mk_Weights {
  weights_W : option (ndarray float)
}.

Record Net : Type := mk_Net {
  graph : Graph;
  weights : Weights
}.

Section state.

(** The per-unit parameter record [x['glms'][n]] is opaque to the update
    rules: they hand it to the model evaluator and to the variable
    accessors. *)
Context {Glm : Type}.

Record State : Type := mk_State {
  net : Net;
  glms : list Glm
}.

Definition set_A (x : State) (a : ndarray Z) : State :=
  mk_State (mk_Net (mk_Graph (Some a) (graph_L (graph (net x)))) (weights (net x)))
           (glms x).

Definition set_L (x : State) (l : ndarray float) : State :=
  mk_State (mk_Net (mk_Graph (graph_A (graph (net x))) (Some l)) (weights (net x)))
           (glms x).

Definition set_W (x : State) (w : ndarray float) : State :=
  mk_State (mk_Net (graph (net x)) (mk_Weights (Some w))) (glms x).

Definition x_A (x : State) : result (ndarray Z) :=
  or_raise KeyError (graph_A (graph (net x))).

Definition x_W (x : State) : result (ndarray float) :=
  or_raise KeyError (weights_W (weights (net x))).

Definition x_L (x : State) : result (ndarray float) :=
  or_raise KeyError (graph_L (graph (net x))).

End state.
Arguments State : clear implicits.
Arguments mk_State {Glm} net glms.

(** ** Effects: the random generator and the debugger *)

(** [np.random] is one global generator; its state is threaded.  [shuffle]
    permutes its argument. *)
Class RandomState (G : Type) := {
  rand : G -> float * G;
  randn : G -> float * G;
  shuffle : list nat -> G -> list nat * G;
  shuffle_perm : forall l g, (shuffle l g).1 ≡ₚ l
}.

(** The places where the source calls [pdb.set_trace()]. *)
Inductive site : Set :=
| bp_log_G_not_finite
| bp_plain_lp_not_finite
| bp_plain_self_loop_absent.

Record Eff (G : Type) : Type := mk_Eff {
  rng : G;
  stops : list site
}.
Arguments mk_Eff {G} rng stops.
Arguments rng {G} _.
Arguments stops {G} _.

(** A computation that may draw random numbers, stop in the debugger and
    raise. *)
Definition M (G T : Type) : Type := Eff G -> result (T * Eff G).

Global Instance M_ret {G} : MRet (M G) := fun _ v e => Ok (v, e).
Global Instance M_bind {G} : MBind (M G) := fun _ _ f m e =>
  match m e with
  | Ok (v, e') => f v e'
  | Raise ex => Raise ex
  end.

Definition lift {G T} (r : result T) : M G T := fun e =>
  match r with
  | Ok v => Ok (v, e)
  | Raise ex => Raise ex
  end.

Definition draw {G T} (f : G -> T * G) : M G T := fun e =>
  let '(v, g) := f (rng e) in Ok (v, mk_Eff g (stops e)).

(** [pdb.set_trace()]: the stop is recorded and the run resumes, as it does
    when the debugger is told to continue. *)
Definition pdb_set_trace {G} (s : site) : M G unit := fun e =>
  Ok (tt, mk_Eff (rng e) (s :: stops e)).

(** [for i in l: s = body(i, s)] *)
Fixpoint for_in {F : Type -> Type} `{MBind F, MRet F} {S : Type}
    (l : list nat) (body : nat -> S -> F S) (s : S) : F S :=
  match l with
  | [] => mret s
  | i :: l => s' ← body i s; for_in l body s'
  end.

(** ** More numpy: broadcasting arithmetic, array assignment *)

Module npr.

Local Open Scope float_scope.

(** [a (op) b] on 1-d arrays: equal lengths, or one of them of length 1;
    otherwise numpy raises ValueError. *)
Definition broadcast (op : float -> float -> float) (a b : list float)
    : result (list float) :=
  if decide (length a = length b) then Ok (zip_with op a b)
  else match a, b with
       | [u], _ => Ok (op u <$> b)
       | _, [v] => Ok ((fun u => op u v) <$> a)
       | _, _ => Raise ValueError
       end.

Definition add := broadcast PrimFloat.add.
Definition sub := broadcast PrimFloat.sub.

(** [a[i] = v] and [a[i]] on a 1-d array. *)
Definition setitem {T} (a : list T) (i : nat) (v : T) : result (list T) :=
  if decide (i < length a) then Ok (<[i := v]> a) else Raise IndexError.

Definition getitem {T} (a : list T) (i : nat) : result T :=
  or_raise IndexError (a !! i).

Definition nan_to_neg_inf (v : float) : float :=
  if np.isnan v then - np.Inf else v.

End npr.

(** [np.polynomial.hermite.hermgauss(20)]: the nodes and weights of the
    20-point Gauss-Hermite rule, in double precision. *)
Definition hermgauss20 : list float * list float :=
  ([ -0x1.58cc7ca59b160p+2; -0x1.26a2bbb67f55ep+2; -0x1.f8ee072f5de17p+1;
     -0x1.ac867f9b566b1p+1; -0x1.64f798cfeaf13p+1; -0x1.20a2fcf426dedp+1;
     -0x1.bd10ceb867454p+0; -0x1.3bec6b39e4f51p+0; -0x1.7996281385f71p-1;
     -0x1.f67530743d203p-3; 0x1.f67530743d203p-3; 0x1.7996281385f71p-1;
     0x1.3bec6b39e4f51p+0; 0x1.bd10ceb867454p+0; 0x1.20a2fcf426dedp+1;
     0x1.64f798cfeaf13p+1; 0x1.ac867f9b566b1p+1; 0x1.f8ee072f5de17p+1;
     0x1.26a2bbb67f55ep+2; 0x1.58cc7ca59b160p+2 ]%float,
   [ 0x1.f603cb3708d0ep-43; 0x1.e3b670b9be891p-32; 0x1.d276971597922p-24;
     0x1.05cf73262822dp-17; 0x1.dedc5f2bdb140p-13; 0x1.a92af8d752191p-9;
     0x1.967eddf3bc842p-6; 0x1.be88d368eaadap-4; 0x1.258e438063fd2p-2;
     0x1.d956678ededf9p-2; 0x1.d956678ededf9p-2; 0x1.258e438063fd2p-2;
     0x1.be88d368eaadap-4; 0x1.967eddf3bc842p-6; 0x1.a92af8d752191p-9;
     0x1.dedc5f2bdb140p-13; 0x1.05cf73262822dp-17; 0x1.d276971597922p-24;
     0x1.e3b670b9be891p-32; 0x1.f603cb3708d0ep-43 ]%float).

(** ** The population: model evaluator and variable accessors *)

Record GaussianPrior : Type := mk_GaussianPrior {
  prior_mu : float;
  prior_sigma : float
}.

(** [network.weights]: the weight prior and, when the model has one, the
    prior of the refractory self-connections. *)
Record WeightModel : Type := mk_WeightModel {
  prior : GaussianPrior;
  refractory_prior : option GaussianPrior
}.

(** What the update rules ask of the population object: the compiled
    expressions they evaluate ([seval], [.eval]) and the accessors of
    [utils.packvec].  All of it is outside the sources and pure. *)
Class Population (Glm : Type) := {
  (* population.model['N'] *)
  model_N : nat;
  network_weights : WeightModel;
  is_latent_distance_graph : bool;
  L_shape : list nat;
  (* seval(glm.bias_model.I_bias, syms, nvars), and likewise I_stim, I_imp *)
  I_bias : Net -> Glm -> list float;
  I_stim : Net -> Glm -> list float;
  I_imp : Net -> Glm -> list float;
  (* seval(network.graph.pA, syms['net'], x['net']) *)
  graph_pA : Net -> ndarray float;
  (* seval(network.log_p, syms['net'], x['net']) *)
  network_log_p : Net -> float;
  (* seval(network.graph.log_p, syms['net']['graph'], x['net']['graph']) *)
  graph_log_p : Graph -> float;
  g_netlp_wrt_L : Graph -> list float;
  g_netlp_wrt_W : Net -> list float;
  (* glm.ll.eval over A, the flat W, n, the three currents and the
     nonlinearity parameters x['glms'][n]['nlin'] *)
  glm_nlin : Glm -> list float;
  glm_ll : ndarray Z -> ndarray float -> nat ->
           list float -> list float -> list float -> list float -> float;
  g_glmlp_wrt_W : ndarray Z -> ndarray float -> nat ->
           list float -> list float -> list float -> list float -> list float;
  (* seval(glm.log_p, syms, x_all) and its gradient *)
  glm_logp : Net -> Glm -> float;
  g_glm_logp_wrt_glm : Net -> Glm -> list float;
  (* packdict(get_vars(glm_syms, glm)) and
     set_vars(glm_syms, glm, unpackdict(v, shapes)) *)
  pack_glm : Glm -> list float;
  unpack_glm : Glm -> list float -> Glm;
  compute_log_p : State Glm -> float
}.

(** The HMC primitive [hmc(nll, grad_nll, step_sz, n_steps, q0,
    adaptive_step_sz, avg_accept_rate)] of module [hmc], outside the
    sources.  The closures it is given write their argument into the state
    they captured and may raise, so they are state passing, over whatever
    state [S] the caller has them capture.  It returns a position shaped
    like [q0], the new step size and the new acceptance rate. *)
Class Hmc (G : Type) := {
  hmc : forall S : Type,
    (list float -> S -> result (float * S)) ->
    (list float -> S -> result (list float * S)) ->
    float -> nat -> list float -> bool -> float ->
    S -> G -> result (((list float * float * float) * S) * G);
  hmc_length : forall S nll grad step n q0 ad acc s g r,
    hmc S nll grad step n q0 ad acc s g = Ok r ->
    length r.1.1.1.1 = length q0;
  (* it reaches the captured state through the closures only: what they
     keep true of it is true of the state it leaves *)
  hmc_state : forall S nll grad step n q0 ad acc s g r (P : S -> Prop),
    (forall q s v s', P s -> nll q s = Ok (v, s') -> P s') ->
    (forall q s v s', P s -> grad q s = Ok (v, s') -> P s') ->
    P s ->
    hmc S nll grad step n q0 ad acc s g = Ok r ->
    P r.1.2
}.

(** A call of [hmc] inside an update rule: it draws from the global
    generator. *)
Definition call_hmc {G : Type} `{Hmc G} {S : Type}
    (nll : list float -> S -> result (float * S))
    (grad_nll : list float -> S -> result (list float * S))
    (step_sz : float) (n_steps : nat) (q0 : list float)
    (adaptive_step_sz : bool) (avg_accept_rate : float) (s : S)
    : M G ((list float * float * float) * S) := fun e =>
  '(r, g) ← hmc S nll grad_nll step_sz n_steps q0 adaptive_step_sz
               avg_accept_rate s (rng e);
  Ok (r, mk_Eff g (stops e)).

(** ** Collaborators of the update rules inside the repository *)

Section collaborators.

Context `{NumLib} {G : Type} `{RandomState G} {Glm : Type}.

Local Open Scope float_scope.

Definition fmax (a b : float) : float := if a <? b then b else a.

Fixpoint first_reaching (u acc : float) (k : nat) (p : list float) : option nat :=
  match p with
  | [] => None
  | v :: p =>
      let acc := acc + v in
      if u <=? acc then Some k else first_reaching u acc (S k) p
  end.

(** Modelled from the spec: the log-weighted categorical sampler
    [log_sum_exp_sample] of module [log_sum_exp], which is not among the
    sources.  The maximum log-weight is subtracted before exponentiating, a
    uniform number is drawn, and the first index whose cumulative weight
    reaches it is the sample; an input with no such index is an error, which
    the caller catches as [Exception]. *)
Definition log_sum_exp_sample (lnp : list float) : M G nat :=
  let m := foldr fmax neg_infinity lnp in
  let p := (fun l => np_exp (l - m)) <$> lnp in
  let total := foldr PrimFloat.add 0 p in
  u ← draw rand;
  lift (or_raise Exception (first_reaching (u * total) 0 0%nat p)).

(** [xn = population.extract_vars(x, n)]: the variables of unit [n]. *)
Record UnitVars : Type := mk_UnitVars {
  xn_net : Net;
  xn_glm : Glm
}.

(** Modelled from the spec: the per-unit extract accessor
    [Population.extract_vars], which is not among the sources.  It pairs the
    network variables of [x], shared and not copied (as the warning in
    [_sample_column_of_A] records), with the record of unit [n]. *)
Definition extract_vars (x : State Glm) (n : nat) : result UnitVars :=
  g ← or_raise IndexError (glms x !! n);
  Ok (mk_UnitVars (net x) g).

End collaborators.
Arguments UnitVars : clear implicits.

(** ** [class CollapsedGibbsNetworkColumnUpdate] *)

Module CollapsedGibbsNetworkColumnUpdate.

(** The weight-prior attributes [preprocess] sets on the object. *)
Record PriorParams : Type := mk_PriorParams {
  mu_w : float;
  sigma_w : float;
  mu_w_ref : float;
  sigma_w_ref : float
}.

Record t : Type := mk {
  propose_from_prior : bool;
  DEG_GAUSS_HERMITE : nat;
  GAUSS_HERMITE_ABSCISSAE : list float;
  GAUSS_HERMITE_WEIGHTS : list float;
  weight_prior : option PriorParams
}.

Definition __init__ : t :=
  mk false 20 hermgauss20.1 hermgauss20.2 None.

Section methods.

Context `{NumLib} {G : Type} `{RandomState G} {Glm : Type} `{Population Glm}.

Local Open Scope float_scope.

Definition preprocess (self : t) : t :=
  let mu := prior_mu (prior network_weights) in
  let sigma := prior_sigma (prior network_weights) in
  let params :=
    match refractory_prior network_weights with
    | Some ref => mk_PriorParams mu sigma (prior_mu ref) (prior_sigma ref)
    | None => mk_PriorParams mu sigma mu sigma
    end in
  mk (propose_from_prior self) (DEG_GAUSS_HERMITE self)
     (GAUSS_HERMITE_ABSCISSAE self) (GAUSS_HERMITE_WEIGHTS self) (Some params).

Definition _precompute_vars (x : State Glm) (n_post : nat)
    : result (list float * list float * list float * ndarray float) :=
  nvars ← extract_vars x n_post;
  Ok (I_bias (xn_net nvars) (xn_glm nvars),
      I_stim (xn_net nvars) (xn_glm nvars),
      I_imp (xn_net nvars) (xn_glm nvars),
      graph_pA (net x)).

(** [W = x['net']['weights']['W'].reshape(A.shape)] is a view: an assignment
    [W[n_pre, n_post] = w] lands in the array that [x] holds. *)
Definition W_view (x : State Glm) (A : ndarray Z) : result (ndarray float) :=
  W0 ← x_W x;
  reshape W0 (shape A).

Definition W_assign (x : State Glm) (A : ndarray Z) (n_pre n_post : nat) (w : float)
    : result (State Glm) :=
  W0 ← x_W x;
  W ← reshape W0 (shape A);
  W ← set2 W n_pre n_post w;
  Ok (set_W x (mk_ndarray (shape W0) (data W))).

Definition _glm_ll_A (n_pre n_post : nat) (w : float) (x : State Glm)
    (I_bias I_stim I_imp : list float) : result (float * State Glm) :=
  (* Set A in state dict x *)
  A ← x_A x;
  A_init ← get2 A n_pre n_post;
  A ← set2 A n_pre n_post 1%Z;
  let x := set_A x A in
  (* Set W in state dict x *)
  W ← W_view x A;
  W_init ← get2 W n_pre n_post;
  x ← W_assign x A n_pre n_post w;
  W ← W_view x A;
  (* Get the likelihood of the GLM under A and W *)
  g ← npr.getitem (glms x) n_post;
  let ll := glm_ll A (ravel W) n_post I_bias I_stim I_imp (glm_nlin g) in
  (* Reset A and W *)
  A ← set2 A n_pre n_post A_init;
  let x := set_A x A in
  x ← W_assign x A n_pre n_post W_init;
  Ok (ll, x).

Definition _glm_ll_noA (n_pre n_post : nat) (x : State Glm)
    (I_bias I_stim I_imp : list float) : result (float * State Glm) :=
  A ← x_A x;
  A_init ← get2 A n_pre n_post;
  A ← set2 A n_pre n_post 0%Z;
  let x := set_A x A in
  W ← x_W x;
  g ← npr.getitem (glms x) n_post;
  let ll := glm_ll A W n_post I_bias I_stim I_imp (glm_nlin g) in
  A ← set2 A n_pre n_post A_init;
  Ok (ll, set_A x A).

(** The prior pair of an entry: the refractory one on the diagonal. *)
Definition select_prior (self : t) (n_pre n_post : nat) : result (float * float) :=
  p ← or_raise AttributeError (weight_prior self);
  if decide (n_pre = n_post)
  then Ok (mu_w_ref p, sigma_w_ref p)
  else Ok (mu_w p, sigma_w p).

Definition W_nns_of (self : t) (mu_w sigma_w : float) : list float :=
  np.adds (np.muls (np.sqrt 2 * sigma_w) (GAUSS_HERMITE_ABSCISSAE self)) mu_w.

(** One turn of the quadrature loop of [_collapsed_sample_AW], on
    [(log_L, weighted_log_L, x)]. *)
Definition quadrature_step (self : t) (n_pre n_post : nat)
    (I_bias I_stim I_imp W_nns : list float) (i : nat)
    (st : list float * list float * State Glm)
    : result (list float * list float * State Glm) :=
  let '(log_L, weighted_log_L, x) := st in
  w ← npr.getitem (GAUSS_HERMITE_WEIGHTS self) i;
  W_nn ← npr.getitem W_nns i;
  '(ll, x) ← _glm_ll_A n_pre n_post W_nn x I_bias I_stim I_imp;
  log_L ← npr.setitem log_L i ll;
  (* Handle NaNs in the GLM log likelihood *)
  v ← npr.getitem weighted_log_L i;
  weighted_log_L ← (if np.isnan v
                    then npr.setitem weighted_log_L i (- np.Inf)
                    else Ok weighted_log_L);
  l ← npr.getitem log_L i;
  weighted_log_L ← npr.setitem weighted_log_L i (l + np_log (w / np.sqrt np.pi));
  (* Handle NaNs in the GLM log likelihood *)
  v ← npr.getitem weighted_log_L i;
  weighted_log_L ← (if np.isnan v
                    then npr.setitem weighted_log_L i (- np.Inf)
                    else Ok weighted_log_L);
  Ok (log_L, weighted_log_L, x).

Definition quadrature (self : t) (n_pre n_post : nat)
    (I_bias I_stim I_imp W_nns : list float) (x : State Glm)
    : result (list float * list float * State Glm) :=
  for_in (seq 0 (DEG_GAUSS_HERMITE self))
         (quadrature_step self n_pre n_post I_bias I_stim I_imp W_nns)
         (np.zeros (DEG_GAUSS_HERMITE self), np.zeros (DEG_GAUSS_HERMITE self), x).

(** The arrays from which [W[n_pre, n_post]] is drawn when the edge is
    present: [(log_F_W, W_centers)]. *)
Definition W_centers_of (mu_w sigma_w : float) (W_nns : list float) : list float :=
  [mu_w - 6.0 * sigma_w]
  ++ np.divs (np.add (np.from1 W_nns) (np.butlast W_nns)) 2.0
  ++ [mu_w + 6.0 * sigma_w].

Definition log_posterior_W_of (mu_w sigma_w : float) (W_nns log_L : list float)
    : result (list float) :=
  let log_prior_W :=
    np.muls (-0.5 / (sigma_w * sigma_w)) (np.square (np.subs W_nns mu_w)) in
  npr.add log_prior_W log_L.

Definition log_posterior_avg_of (self : t) (log_posterior_W : list float) : list float :=
  np.subs ((fun i => logsumexp (np.pair_at i log_posterior_W))
             <$> seq 0 (DEG_GAUSS_HERMITE self - 1))
          (np_log 2.0).

Definition log_F_W_of (self : t) (W_nns log_posterior_W : list float)
    : result (list float) :=
  let W_bin_sizes := np.sub (np.from1 W_nns) (np.butlast W_nns) in
  let log_posterior_avg := log_posterior_avg_of self log_posterior_W in
  log_posterior_mass ← npr.add log_posterior_avg (np_log <$> W_bin_sizes);
  (* Normalize the posterior mass *)
  let log_posterior_mass :=
    np.subs log_posterior_mass (logsumexp log_posterior_mass) in
  (* Compute the log CDF *)
  Ok ([- np.Inf]
      ++ ((fun i => logsumexp (np.upto i log_posterior_mass))
            <$> seq 1 (DEG_GAUSS_HERMITE self - 1))
      ++ [0.0]).

(** The two log weights handed to the sampler of [A[n_pre, n_post]]:
    absence first. *)
Definition posterior_log_odds (prior_lp_A prior_lp_noA log_G ll_noA : float)
    : list float :=
  (* Compute log Pr(A_nn=1) given prior and estimate of log lkhd after
     integrating out W *)
  let log_pr_A := prior_lp_A + log_G in
  (* Compute log Pr(A_nn = 0 | {s,c}) *)
  let log_pr_noA := prior_lp_noA + ll_noA in
  let log_pr_noA := if np.isnan log_pr_noA then - np.Inf else log_pr_noA in
  [log_pr_noA; log_pr_A].

(** Lines 340 to 362 of [_collapsed_sample_AW]: from [log_G] to the new
    [A[n_pre, n_post]]. *)
Definition decide_A (n_pre n_post : nat) (prior_lp_A prior_lp_noA log_G : float)
    (x : State Glm) (I_bias I_stim I_imp : list float) : M G (State Glm) :=
  _ ← (if negb (np.isfinite log_G)
       then pdb_set_trace bp_log_G_not_finite
       else mret tt);
  '(ll_noA, x) ← lift (_glm_ll_noA n_pre n_post x I_bias I_stim I_imp);
  (* Sample A; an exception of the sampler is raised again after the
     debugger stop *)
  k ← log_sum_exp_sample (posterior_log_odds prior_lp_A prior_lp_noA log_G ll_noA);
  A ← lift (x_A x);
  A ← lift (set2 A n_pre n_post (Z.of_nat k));
  mret (set_A x A).

(** Lines 364 to 408 of [_collapsed_sample_AW]: the new [W[n_pre, n_post]]. *)
Definition resample_W (self : t) (n_pre n_post : nat) (mu_w sigma_w : float)
    (W_nns log_L : list float) (x : State Glm)
    (I_bias I_stim I_imp : list float) : M G (State Glm) :=
  A ← lift (x_A x);
  (* Sample W from its posterior, i.e. log_L with denominator log_G *)
  a ← lift (get2 A n_pre n_post);
  x ← (if decide (a = 1%Z) then
         let W_centers := W_centers_of mu_w sigma_w W_nns in
         log_posterior_W ← lift (log_posterior_W_of mu_w sigma_w W_nns log_L);
         log_F_W ← lift (log_F_W_of self W_nns log_posterior_W);
         (* Sample via inverse CDF. Since log is concave, this overestimates. *)
         u ← draw rand;
         x ← lift (W_assign x A n_pre n_post
                     (np_interp (np_log u) log_F_W W_centers));
         W ← lift (W_view x A);
         w ← lift (get2 W n_pre n_post);
         '(ll, x) ← lift (_glm_ll_A n_pre n_post w x I_bias I_stim I_imp);
         if np.isfinite ll then mret x else lift (Raise AssertionError)
       else
         (* Sample W from the prior *)
         z ← draw randn;
         lift (W_assign x A n_pre n_post (mu_w + sigma_w * z)));
  (* Set W in state dict x *)
  W ← lift (W_view x A);
  mret (set_W x (ravel W)).

Definition _collapsed_sample_AW (self : t) (n_pre n_post : nat) (x : State Glm)
    (I_bias I_stim I_imp : list float) (p_A : ndarray float) : M G (State Glm) :=
  '(mu_w, sigma_w) ← lift (select_prior self n_pre n_post);
  A ← lift (x_A x);
  _ ← lift (W_view x A);
  (* Propose from the prior and see if A would change. *)
  p ← lift (get2 p_A n_pre n_post);
  let prior_lp_A := np_log p in
  let prior_lp_noA := np_log (1.0 - p) in
  (* Approximate G = \int_0^\infty p({s,c} | A, W) p(W_{n,n'}) dW_{n,n'} *)
  let W_nns := W_nns_of self mu_w sigma_w in
  '(log_L, weighted_log_L, x) ←
     lift (quadrature self n_pre n_post I_bias I_stim I_imp W_nns x);
  (* compute log pr(A_nn) and log pr(\neg A_nn) via log G *)
  let log_G := logsumexp weighted_log_L in
  x ← decide_A n_pre n_post prior_lp_A prior_lp_noA log_G x I_bias I_stim I_imp;
  resample_W self n_pre n_post mu_w sigma_w W_nns log_L x I_bias I_stim I_imp.

(** One turn of the quadrature loop of [_collapsed_sample_AW_with_prior]
    (the same text in both of its branches), on [(log_L, x)]. *)
Definition quadrature_with_prior_step (self : t) (n_pre n_post : nat)
    (I_bias I_stim I_imp W_nns : list float) (i : nat)
    (st : list float * State Glm) : result (list float * State Glm) :=
  let '(log_L, x) := st in
  w ← npr.getitem (GAUSS_HERMITE_WEIGHTS self) i;
  W_nn ← npr.getitem W_nns i;
  '(ll, x) ← _glm_ll_A n_pre n_post W_nn x I_bias I_stim I_imp;
  log_L ← npr.setitem log_L i (np_log (w / np.sqrt np.pi) + ll);
  (* Handle NaNs in the GLM log likelihood *)
  v ← npr.getitem log_L i;
  log_L ← (if np.isnan v then npr.setitem log_L i (- np.Inf) else Ok log_L);
  Ok (log_L, x).

Definition quadrature_with_prior (self : t) (n_pre n_post : nat)
    (I_bias I_stim I_imp W_nns : list float) (x : State Glm)
    : result (list float * State Glm) :=
  for_in (seq 0 (DEG_GAUSS_HERMITE self))
         (quadrature_with_prior_step self n_pre n_post I_bias I_stim I_imp W_nns)
         (np.zeros (DEG_GAUSS_HERMITE self), x).

Definition log_F_W_with_prior (self : t) (log_L : list float) (log_G : float)
    : list float :=
  let log_p_W := np.subs log_L log_G in
  ((fun i => logsumexp (np.upto i log_p_W)) <$> seq 1 (DEG_GAUSS_HERMITE self - 1))
  ++ [0].

(** [W[n_pre, n_post] = np.interp(np.log(np.random.rand()), log_F_W, W_nns)] *)
Definition resample_W_with_prior (self : t) (n_pre n_post : nat) (A : ndarray Z)
    (W_nns log_L : list float) (log_G : float) (x : State Glm) : M G (State Glm) :=
  let log_F_W := log_F_W_with_prior self log_L log_G in
  u ← draw rand;
  lift (W_assign x A n_pre n_post (np_interp (np_log u) log_F_W W_nns)).

Definition _collapsed_sample_AW_with_prior (self : t) (n_pre n_post : nat)
    (x : State Glm) (I_bias I_stim I_imp : list float) (p_A : ndarray float)
    : M G (State Glm) :=
  '(mu_w, sigma_w) ← lift (select_prior self n_pre n_post);
  A ← lift (x_A x);
  W ← lift (W_view x A);
  (* Propose from the prior and see if A would change. *)
  p ← lift (get2 p_A n_pre n_post);
  let prior_lp_A := np_log p in
  u ← draw rand;
  let prop_A : Z := if np_log u <? prior_lp_A then 1%Z else 0%Z in
  (* We only need to compute the acceptance probability if the proposal
     would change A *)
  A_init ← lift (get2 A n_pre n_post);
  W_init ← lift (get2 W n_pre n_post);
  let W_nns := W_nns_of self mu_w sigma_w in
  x ← (if decide (A_init ≠ prop_A) then
         '(log_L, x) ←
            lift (quadrature_with_prior self n_pre n_post I_bias I_stim I_imp W_nns x);
         let log_G := logsumexp log_L in
         let log_lkhd_A := log_G in
         '(log_lkhd_noA, x) ← lift (_glm_ll_noA n_pre n_post x I_bias I_stim I_imp);
         (* Decide whether or not to accept *)
         let log_pr_accept :=
           if decide (prop_A ≠ 0%Z)
           then log_lkhd_A - log_lkhd_noA
           else log_lkhd_noA - log_lkhd_A in
         u ← draw rand;
         if np_log u <? log_pr_accept then
           (* Update A *)
           A ← lift (x_A x);
           A ← lift (set2 A n_pre n_post prop_A);
           let x := set_A x A in
           (* Update W if there is an edge in A *)
           a ← lift (get2 A n_pre n_post);
           if decide (a ≠ 0%Z)
           then resample_W_with_prior self n_pre n_post A W_nns log_L log_G x
           else mret x
         else mret x
       else if decide (A_init ≠ 0%Z) then
         (* If we propose not to change A then we accept with probability 1,
            but we still need to update W *)
         '(log_L, x) ←
            lift (quadrature_with_prior self n_pre n_post I_bias I_stim I_imp W_nns x);
         let log_G := logsumexp log_L in
         resample_W_with_prior self n_pre n_post A W_nns log_L log_G x
       else mret x);
  (* Set W in state dict x *)
  W ← lift (W_view x A);
  mret (set_W x (ravel W)).

Definition entry (self : t) (n_pre n : nat) (x : State Glm)
    (I_bias I_stim I_imp : list float) (p_A : ndarray float) : M G (State Glm) :=
  if propose_from_prior self
  then _collapsed_sample_AW_with_prior self n_pre n x I_bias I_stim I_imp p_A
  else _collapsed_sample_AW self n_pre n x I_bias I_stim I_imp p_A.

(** Collapsed Gibbs sample a column of A and W *)
Definition update (self : t) (x : State Glm) (n : nat) : M G (State Glm) :=
  A ← lift (x_A x);
  N ← lift (npr.getitem (shape A) 0);
  '(I_bias, I_stim, I_imp, p_A) ← lift (_precompute_vars x n);
  order ← draw (shuffle (seq 0 N));
  for_in order (fun n_pre x => entry self n_pre n x I_bias I_stim I_imp p_A) x.

End methods.

End CollapsedGibbsNetworkColumnUpdate.

(** ** [class HmcGlmUpdate] *)

Module HmcGlmUpdate.

Record t : Type := mk {
  avg_accept_rate : float;
  step_sz : float
}.

Definition __init__ : t := mk 0.9 0.05.

Section methods.

Context {G : Type} `{Hmc G} {Glm : Type} `{Population Glm}.

Local Open Scope float_scope.

(** The two evaluators write [x_vec] into the record [x_all['glm']] they
    are handed ([set_vars]) and evaluate the expression; the record is the
    state they pass on. *)
Definition _glm_logp (x_vec : list float) (x_all : UnitVars Glm)
    : float * UnitVars Glm :=
  let x_all := mk_UnitVars (xn_net x_all) (unpack_glm (xn_glm x_all) x_vec) in
  (glm_logp (xn_net x_all) (xn_glm x_all), x_all).

Definition _grad_glm_logp (x_vec : list float) (x_all : UnitVars Glm)
    : list float * UnitVars Glm :=
  let x_all := mk_UnitVars (xn_net x_all) (unpack_glm (xn_glm x_all) x_vec) in
  (g_glm_logp_wrt_glm (xn_net x_all) (xn_glm x_all), x_all).

(** Gibbs sample the GLM parameters of unit [n]. *)
Definition update (self : t) (x : State Glm) (n : nat) : M G (t * State Glm) :=
  xn ← lift (extract_vars x n);
  (* Get the differentiable variables suitable for HMC *)
  let x_glm_0 := pack_glm (xn_glm xn) in
  (* Create lambda functions to compute the nll and its gradient *)
  let nll := fun x_glm_vec xn =>
    let '(lp, xn) := _glm_logp x_glm_vec xn in Ok (-1.0 * lp, xn) in
  let grad_nll := fun x_glm_vec xn =>
    let '(glp, xn) := _grad_glm_logp x_glm_vec xn in Ok (np.muls (-1.0) glp, xn) in
  (* HMC with automatic parameter tuning *)
  let n_steps := 2%nat in
  '(x_glm, new_step_sz, new_accept_rate, xn) ←
     call_hmc nll grad_nll (step_sz self) n_steps x_glm_0 true
              (avg_accept_rate self) xn;
  (* Update step size and accept rate *)
  let self := mk new_accept_rate new_step_sz in
  (* Unpack the optimized parameters back into the state dict *)
  let xn := mk_UnitVars (xn_net xn) (unpack_glm (xn_glm xn) x_glm) in
  glms' ← lift (npr.setitem (glms x) n (xn_glm xn));
  mret (self, mk_State (net x) glms').

End methods.

End HmcGlmUpdate.

(** ** [class GibbsNetworkColumnUpdate] *)

Module GibbsNetworkColumnUpdate.

Record t : Type := mk {
  avg_accept_rate : float;
  step_sz : float
}.

Definition __init__ : t := mk 0.9 0.05.

Section methods.

Context `{NumLib} {G : Type} `{RandomState G} `{Hmc G} {Glm : Type} `{Population Glm}.

Local Open Scope float_scope.

Definition _precompute_currents (x : State Glm) (n_post : nat)
    : result (list float * list float * list float) :=
  nvars ← extract_vars x n_post;
  Ok (I_bias (xn_net nvars) (xn_glm nvars),
      I_stim (xn_net nvars) (xn_glm nvars),
      I_imp (xn_net nvars) (xn_glm nvars)).

(** Compute the log probability for a given column A[:,n_post] *)
Definition _lp_A (A : ndarray Z) (x : State Glm) (n_post : nat)
    (I_bias I_stim I_imp : list float) : result (float * State Glm) :=
  let x := set_A x A in
  let lp := network_log_p (net x) in
  W ← x_W x;
  g ← npr.getitem (glms x) n_post;
  Ok (lp + glm_ll A W n_post I_bias I_stim I_imp (glm_nlin g), x).

(** Compute the log probability for a given column W[:,n_post] *)
Definition _lp_W (W : list float) (x : State Glm) (n_post : nat)
    (I_bias I_stim I_imp : list float) : result (float * State Glm) :=
  let x := set_W x (mk_ndarray [length W] W) in
  let lp := network_log_p (net x) in
  A ← x_A x;
  g ← npr.getitem (glms x) n_post;
  Ok (lp + glm_ll A (mk_ndarray [length W] W) n_post I_bias I_stim I_imp (glm_nlin g), x).

(** [g_mask = np.zeros((N,N)); g_mask[:,n_post] = 1; g_mask.flatten()] *)
Definition g_mask (N n_post : nat) : result (list float) :=
  if decide (n_post < N)
  then Ok ((fun k => if decide (k `mod` N = n_post)%nat then 1 else 0) <$> seq 0 (N * N))
  else Raise IndexError.

Definition _grad_lp_W (W : list float) (x : State Glm) (n_post : nat)
    (I_bias I_stim I_imp : list float) : result (list float * State Glm) :=
  let x := set_W x (mk_ndarray [length W] W) in
  let g_lp := g_netlp_wrt_W (net x) in
  A ← x_A x;
  g ← npr.getitem (glms x) n_post;
  g_lp ← npr.add g_lp
           (g_glmlp_wrt_W A (mk_ndarray [length W] W) n_post
                          I_bias I_stim I_imp (glm_nlin g));
  (* Ignore gradients wrt columns other than n_post *)
  mask ← g_mask model_N n_post;
  g_lp ← npr.broadcast PrimFloat.mul g_lp mask;
  Ok (g_lp, x).

Definition sample_entry_of_A (n_post : nat) (I_bias I_stim I_imp : list float)
    (n_pre : nat) (x : State Glm) : M G (State Glm) :=
  (* A is the array that x holds: the assignments below are seen through x *)
  A ← lift (x_A x);
  A ← lift (set2 A n_pre n_post 0%Z);
  '(log_pr_noA, x) ← lift (_lp_A A x n_post I_bias I_stim I_imp);
  A ← lift (set2 A n_pre n_post 1%Z);
  '(log_pr_A, x) ← lift (_lp_A A x n_post I_bias I_stim I_imp);
  (* Sample A[n_pre,n_post] *)
  k ← log_sum_exp_sample [log_pr_noA; log_pr_A];
  A ← lift (set2 A n_pre n_post (Z.of_nat k));
  let x := set_A x A in
  _ ← (if negb (np.isfinite log_pr_noA) || negb (np.isfinite log_pr_A)
       then pdb_set_trace bp_plain_lp_not_finite
       else mret tt);
  a ← lift (get2 A n_pre n_post);
  _ ← (if decide (n_pre = n_post /\ a = 0%Z)
       then pdb_set_trace bp_plain_self_loop_absent
       else mret tt);
  mret x.

Definition _sample_column_of_A (n_post : nat) (x : State Glm)
    (I_bias I_stim I_imp : list float) : M G (State Glm) :=
  (* Sample the adjacency matrix if it exists *)
  match graph_A (graph (net x)) with
  | Some A =>
      N ← lift (npr.getitem (shape A) 0);
      for_in (seq 0 N) (sample_entry_of_A n_post I_bias I_stim I_imp) x
  | None => mret x
  end.

Definition _sample_column_of_W (self : t) (n_post : nat) (x : State Glm)
    (I_bias I_stim I_imp : list float) : M G (t * State Glm) :=
  (* Sample W if it exists *)
  match weights_W (weights (net x)) with
  | Some W0 =>
      let nll := fun W x =>
        '(lp, x) ← _lp_W W x n_post I_bias I_stim I_imp; Ok (-1.0 * lp, x) in
      let grad_nll := fun W x =>
        '(g, x) ← _grad_lp_W W x n_post I_bias I_stim I_imp;
        Ok (np.muls (-1.0) g, x) in
      (* Automatically tune these parameters *)
      let n_steps := 10%nat in
      '(W, new_step_sz, new_accept_rate, x) ←
         call_hmc nll grad_nll (step_sz self) n_steps (data W0) true
              (avg_accept_rate self) x;
      (* Update step size and accept rate *)
      let self := mk new_accept_rate new_step_sz in
      (* Update current W *)
      mret (self, set_W x (mk_ndarray [length W] W))
  | None => mret (self, x)
  end.

(** Sample a single column of the network (all the incoming coupling
    filters). *)
Definition update (self : t) (x : State Glm) (n : nat) : M G (t * State Glm) :=
  '(I_bias, I_stim, I_imp) ← lift (_precompute_currents x n);
  x ← _sample_column_of_A n x I_bias I_stim I_imp;
  _sample_column_of_W self n x I_bias I_stim I_imp.

End methods.

End GibbsNetworkColumnUpdate.

(** ** [class LatentDistanceNetworkUpdate] *)

Module LatentDistanceNetworkUpdate.

Record t : Type := mk {
  avg_accept_rate : float;
  step_sz : float
}.

Definition __init__ : t := mk 0.9 0.05.

Section methods.

Context {G : Type} `{Hmc G} {Glm : Type} `{Population Glm}.

Local Open Scope float_scope.

Definition _lp_L (L : ndarray float) (x : State Glm) : float * State Glm :=
  let x := set_L x L in
  (graph_log_p (graph (net x)), x).

Definition _grad_lp_wrt_L (L : ndarray float) (x : State Glm)
    : list float * State Glm :=
  let x := set_L x L in
  (g_netlp_wrt_L (graph (net x)), x).

(** Sample L using HMC given A and delta (distance scale) *)
Definition update (self : t) (x : State Glm) : M G (t * State Glm) :=
  match graph_L (graph (net x)) with
  | Some L0 =>
      let nll := fun L x =>
        L ← reshape (mk_ndarray [length L] L) L_shape;
        let '(lp, x) := _lp_L L x in Ok (-1.0 * lp, x) in
      let grad_nll := fun L x =>
        L ← reshape (mk_ndarray [length L] L) L_shape;
        let '(g, x) := _grad_lp_wrt_L L x in Ok (np.muls (-1.0) g, x) in
      (* Automatically tune these parameters *)
      let n_steps := 10%nat in
      '(L, new_step_sz, new_accept_rate, x) ←
         call_hmc nll grad_nll (step_sz self) n_steps (data L0) true
              (avg_accept_rate self) x;
      (* Update step size and accept rate *)
      let self := mk new_accept_rate new_step_sz in
      (* Update current L *)
      L ← lift (reshape (mk_ndarray [length L] L) L_shape);
      mret (self, set_L x L)
  | None => mret (self, x)
  end.

End methods.

End LatentDistanceNetworkUpdate.

(** ** The sweep driver: [initialize_updates] and [gibbs_sample] *)

(** The update objects in the two lists; [update] is dispatched on the
    class of the object. *)
Inductive ParallelUpdate : Type :=
| glm_sampler (u : HmcGlmUpdate.t)
| net_sampler (u : CollapsedGibbsNetworkColumnUpdate.t)
| plain_net_sampler (u : GibbsNetworkColumnUpdate.t).

Inductive SerialUpdate : Type :=
| loc_sampler (u : LatentDistanceNetworkUpdate.t).

(** The objects a run of [gibbs_sample] holds: the state object [x], which
    the updates write into, and the deep copies made of it, in the order in
    which they were made.  Address [0] is [x]; address [k+1] is copy [k]. *)
Record Heap (Glm : Type) : Type := mk_Heap {
  live : State Glm;
  copies : list (State Glm)
}.
Arguments mk_Heap {Glm} live copies.
Arguments live {Glm} _.
Arguments copies {Glm} _.

Definition deref {Glm} (h : Heap Glm) (a : nat) : option (State Glm) :=
  match a with
  | 0 => Some (live h)
  | S k => copies h !! k
  end.

(** [copy.deepcopy(x)]: a new object with the contents of [x]. *)
Definition deepcopy_live {Glm} (h : Heap Glm) : nat * Heap Glm :=
  (S (length (copies h)), mk_Heap (live h) (copies h ++ [live h])).

Section driver.

Context `{NumLib} {G : Type} `{RandomState G} `{Hmc G} {Glm : Type} `{Population Glm}.

Definition initialize_updates : list SerialUpdate * list ParallelUpdate :=
  (* All populations have a parallel GLM sampler *)
  let glm := HmcGlmUpdate.__init__ in
  (* All populations have a network sampler *)
  let net_ := CollapsedGibbsNetworkColumnUpdate.preprocess
                CollapsedGibbsNetworkColumnUpdate.__init__ in
  (* If the graph model is a latent distance model, add its update *)
  let serial_updates :=
    if is_latent_distance_graph
    then [loc_sampler LatentDistanceNetworkUpdate.__init__]
    else [] in
  (serial_updates, [glm_sampler glm; net_sampler net_]).

Definition parallel_update (pu : ParallelUpdate) (x : State Glm) (n : nat)
    : M G (ParallelUpdate * State Glm) :=
  match pu with
  | glm_sampler u =>
      '(u, x) ← HmcGlmUpdate.update u x n; mret (glm_sampler u, x)
  | net_sampler u =>
      x ← CollapsedGibbsNetworkColumnUpdate.update u x n; mret (net_sampler u, x)
  | plain_net_sampler u =>
      '(u, x) ← GibbsNetworkColumnUpdate.update u x n; mret (plain_net_sampler u, x)
  end.

Definition serial_update (su : SerialUpdate) (x : State Glm)
    : M G (SerialUpdate * State Glm) :=
  match su with
  | loc_sampler u =>
      '(u, x) ← LatentDistanceNetworkUpdate.update u x; mret (loc_sampler u, x)
  end.

(** [for parallel_update in parallel_updates: for n in np.arange(N): ...] *)
Fixpoint run_parallel_updates (N : nat) (pus : list ParallelUpdate) (x : State Glm)
    : M G (list ParallelUpdate * State Glm) :=
  match pus with
  | [] => mret ([], x)
  | pu :: pus =>
      '(pu, x) ← for_in (seq 0 N) (fun n '(pu, x) => parallel_update pu x n) (pu, x);
      '(pus, x) ← run_parallel_updates N pus x;
      mret (pu :: pus, x)
  end.

(** [for serial_update in serial_updates: serial_update.update(x)] *)
Fixpoint run_serial_updates (sus : list SerialUpdate) (x : State Glm)
    : M G (list SerialUpdate * State Glm) :=
  match sus with
  | [] => mret ([], x)
  | su :: sus =>
      '(su, x) ← serial_update su x;
      '(sus, x) ← run_serial_updates sus x;
      mret (su :: sus, x)
  end.

(** What the sweep loop carries: the update objects, the objects in memory
    and the list [x_smpls] of addresses. *)
Record Loop : Type := mk_Loop {
  serial_updates : list SerialUpdate;
  parallel_updates : list ParallelUpdate;
  heap : Heap Glm;
  x_smpls : list nat
}.

(** One turn of [for smpl in np.arange(N_samples)]; the variable [x] is
    address [0] throughout. *)
Definition gibbs_iteration (smpl : nat) (st : Loop) : M G Loop :=
  let x := live (heap st) in
  let lp := compute_log_p x in
  (* Go through each parallel MH update *)
  '(pus, x) ← run_parallel_updates model_N (parallel_updates st) x;
  (* Sample the serial updates *)
  '(sus, x) ← run_serial_updates (serial_updates st) x;
  (* the updates wrote into the object at address 0 *)
  let h := mk_Heap x (copies (heap st)) in
  let '(a, h) := deepcopy_live h in
  mret (mk_Loop sus pus h (x_smpls st ++ [a])).

(** [gibbs_sample(population, data, N_samples, x0)] for a given [x0]: the
    loop state at the [return]. *)
Definition gibbs_loop (N_samples : nat) (x0 : State Glm) : M G Loop :=
  let '(serial_updates, parallel_updates) := initialize_updates in
  (* x_smpls = [x0]; x = x0 *)
  for_in (seq 0 N_samples) gibbs_iteration
         (mk_Loop serial_updates parallel_updates (mk_Heap x0 []) [0]).

(** The trajectory as the caller reads it: the contents of the objects that
    [x_smpls] lists. *)
Definition trajectory (st : Loop) : list (option (State Glm)) :=
  deref (heap st) <$> x_smpls st.

Definition gibbs_sample (N_samples : nat) (x0 : State Glm)
    : M G (list (option (State Glm))) :=
  st ← gibbs_loop N_samples x0;
  mret (trajectory st).

End driver.
Arguments Loop : clear implicits.

(** ** A reference instance, for running the rules on concrete inputs *)

Module Ref.

Local Open Scope float_scope.

Definition ln2 : float := 0x1.62e42fefa39efp-1.

(** [sum_{k < n} s^(2k+1) / (2k+1)], by Horner on [s2 = s*s]. *)
Fixpoint atanh_series (n : nat) (k : float) (s2 : float) : float :=
  match n with
  | O => 0
  | S n => 1 / k + s2 * atanh_series n (k + 2) s2
  end.

Definition of_Z (z : Z) : float :=
  match z with
  | Z0 => 0
  | Zpos _ => of_uint63 (Uint63.of_Z z)
  | Zneg _ => - of_uint63 (Uint63.of_Z (- z))
  end.

Definition to_Z (a : float) : Z :=
  match Prim2SF a with
  | S754_finite sg m e => (if sg then Z.opp else id) (Z.shiftl (Zpos m) e)
  | _ => 0%Z
  end.

(** Natural logarithm with numpy's special values: NaN below zero, minus
    infinity at zero. *)
Definition log (a : float) : float :=
  if is_nan a then nan
  else if a <? 0 then nan
  else if a =? 0 then neg_infinity
  else if a =? infinity then infinity
  else
    let '(m, e) := Z.frexp a in
    let e := of_Z e in
    let '(m, e) := if m <? 0x1.6a09e667f3bcdp-1 then (2 * m, e - 1) else (m, e) in
    let s := (m - 1) / (m + 1) in
    e * ln2 + 2 * s * atanh_series 14 1 (s * s).

Fixpoint exp_series (n : nat) (k : float) (r : float) : float :=
  match n with
  | O => 1
  | S n => 1 + r / k * exp_series n (k + 1) r
  end.

Definition exp (a : float) : float :=
  if is_nan a then nan
  else if 710 <? a then infinity
  else if a <? -746 then 0
  else
    let k := (a / ln2 + 0x1.8p52) - 0x1.8p52 in
    let r := a - k * ln2 in
    Z.ldexp (exp_series 18 1 r) (to_Z k).

Definition sum (a : list float) : float := foldl PrimFloat.add 0 a.

(** [max] of an array; NaN wins, as with [np.amax]. *)
Definition amax (a : list float) : float :=
  match a with
  | [] => nan
  | v :: a => foldl (fun m u => if is_nan m then m else if is_nan u then u
                                else if m <? u then u else m) v a
  end.

(** [scipy.misc.logsumexp]: the maximum is subtracted when it is finite. *)
Definition logsumexp (a : list float) : float :=
  let a_max := amax a in
  let a_max := if is_finite a_max then a_max else 0 in
  log (sum ((fun v => exp (v - a_max)) <$> a)) + a_max.

(** [np.interp(x, xp, fp)]: the end values outside the range of [xp], the
    chord of the last interval that starts at or below [x] inside. *)
Fixpoint interp_from (x x0 f0 : float) (xp fp : list float) : float :=
  match xp, fp with
  | x1 :: xp, f1 :: fp =>
      if x1 <=? x then interp_from x x1 f1 xp fp
      else (f1 - f0) / (x1 - x0) * (x - x0) + f0
  | _, _ => f0
  end.

Definition interp (x : float) (xp fp : list float) : float :=
  if is_nan x then nan
  else match xp, fp with
       | x0 :: xp, f0 :: fp => if x <=? x0 then f0 else interp_from x x0 f0 xp fp
       | _, _ => nan
       end.

Global Instance numlib : NumLib := Build_NumLib log exp logsumexp interp.

(** A deterministic generator: a counter that indexes fixed sequences.
    [shuffle] reverses. *)
Definition rand_at (g : nat) : float :=
  (of_Z (Z.of_nat ((g * 37 + 11) mod 101)) + 1) / 103.

Definition randn_at (g : nat) : float :=
  (of_Z (Z.of_nat ((g * 53 + 7) mod 41)) - 20) / 10.

Global Program Instance random_state : RandomState nat := {|
  rand := fun g => (rand_at g, S g);
  randn := fun g => (randn_at g, S g);
  shuffle := fun l g => (reverse l, S g)
|}.
Next Obligation. intros l g. simpl. apply reverse_Permutation. Qed.

(** A plain HMC step, after the description of the primitive: momenta from
    the normal generator, [n] leapfrog steps, the Metropolis test on the two
    Hamiltonians (a NaN rejects), and a step size nudged by the running
    acceptance rate. *)
Definition axpy (c : float) (a b : list float) : result (list float) :=
  if decide (length a = length b)
  then Ok (zip_with (fun u v => v + c * u) a b)
  else Raise ValueError.

Fixpoint leapfrog {S : Type} (grad : list float -> S -> result (list float * S))
    (step : float) (n : nat) (q p : list float) (s : S)
    : result (list float * list float * S) :=
  match n with
  | O => Ok (q, p, s)
  | Datatypes.S n =>
      '(g, s) ← grad q s;
      p ← axpy (- (step / 2)) g p;
      q ← axpy step p q;
      '(g, s) ← grad q s;
      p ← axpy (- (step / 2)) g p;
      leapfrog grad step n q p s
  end.

Fixpoint momenta (n : nat) (g : nat) : list float * nat :=
  match n with
  | O => ([], g)
  | Datatypes.S n => let '(zs, g') := momenta n (S g) in (randn_at g :: zs, g')
  end.

Definition kinetic (p : list float) : float := 0.5 * sum (np.square p).

Definition hmc_step (S : Type)
    (nll : list float -> S -> result (float * S))
    (grad : list float -> S -> result (list float * S))
    (step : float) (n : nat) (q0 : list float) (adaptive : bool) (acc : float)
    (s : S) (g : nat) : result (((list float * float * float) * S) * nat) :=
  let '(p0, g) := momenta (length q0) g in
  '(U0, s) ← nll q0 s;
  '(q1, p1, s) ← leapfrog grad step n q0 p0 s;
  '(U1, s) ← nll q1 s;
  let accept := log (rand_at g) <? (U0 + kinetic p0) - (U1 + kinetic p1) in
  let q := if accept then q1 else q0 in
  let acc := 0.9 * acc + 0.1 * (if accept then 1 else 0) in
  let step := if adaptive
              then (if 0.9 <? acc then step * 1.02 else step * 0.98)
              else step in
  Ok ((q, step, acc, s), Datatypes.S g).

Lemma axpy_length c a b r : axpy c a b = Ok r -> length r = length b.
Proof.
  unfold axpy. case_decide as Hl; [|discriminate].
  intros [= <-]. rewrite length_zip_with. lia.
Qed.

Lemma leapfrog_length {S : Type} grad step n :
  forall q p (s : S) q' p' s',
    leapfrog grad step n q p s = Ok (q', p', s') -> length q' = length q.
Proof.
  induction n as [|n IH]; intros q p s q' p' s'; simpl.
  - intros [= <- _ _]. reflexivity.
  - destruct (grad q s) as [[g1 s1]|]; simpl; [|discriminate].
    destruct (axpy _ g1 p) as [p1|] eqn:E1; simpl; [|discriminate].
    destruct (axpy step p1 q) as [q1|] eqn:E2; simpl; [|discriminate].
    destruct (grad q1 s1) as [[g2 s2]|]; simpl; [|discriminate].
    destruct (axpy _ g2 p1) as [p2|] eqn:E3; simpl; [|discriminate].
    intros Hrec. apply IH in Hrec. rewrite Hrec. eapply axpy_length, E2.
Qed.

Lemma hmc_step_length S nll grad step n q0 ad acc s g r :
  hmc_step S nll grad step n q0 ad acc s g = Ok r ->
  length r.1.1.1.1 = length q0.
Proof.
  unfold hmc_step. destruct (momenta (length q0) g) as [p0 g'].
  destruct (nll q0 s) as [[U0 s0]|]; simpl; [|discriminate].
  destruct (leapfrog grad step n q0 p0 s0) as [[[q1 p1] s1]|] eqn:E; simpl;
    [|discriminate].
  destruct (nll q1 s1) as [[U1 s2]|]; simpl; [|discriminate].
  intros [= <-]. simpl. apply leapfrog_length in E.
  destruct (_ <? _); congruence.
Qed.

Lemma leapfrog_state {S : Type} grad step n (P : S -> Prop) :
  (forall q s v s', P s -> grad q s = Ok (v, s') -> P s') ->
  forall q p (s : S) q' p' s',
    P s -> leapfrog grad step n q p s = Ok (q', p', s') -> P s'.
Proof.
  intros Hgrad. induction n as [|n IH]; intros q p s q' p' s' HP; simpl.
  - by intros [= _ _ <-].
  - destruct (grad q s) as [[g1 s1]|] eqn:G1; simpl; [|discriminate].
    destruct (axpy _ g1 p) as [p1|]; simpl; [|discriminate].
    destruct (axpy step p1 q) as [q1|]; simpl; [|discriminate].
    destruct (grad q1 s1) as [[g2 s2]|] eqn:G2; simpl; [|discriminate].
    destruct (axpy _ g2 p1) as [p2|]; simpl; [|discriminate].
    apply IH. eapply Hgrad; [|exact G2]. eapply Hgrad; [|exact G1]. done.
Qed.

Lemma hmc_step_state S nll grad step n q0 ad acc s g r (P : S -> Prop) :
  (forall q s v s', P s -> nll q s = Ok (v, s') -> P s') ->
  (forall q s v s', P s -> grad q s = Ok (v, s') -> P s') ->
  P s ->
  hmc_step S nll grad step n q0 ad acc s g = Ok r ->
  P r.1.2.
Proof.
  intros Hnll Hgrad HP. unfold hmc_step.
  destruct (momenta (length q0) g) as [p0 g'].
  destruct (nll q0 s) as [[U0 s0]|] eqn:N0; simpl; [|discriminate].
  destruct (leapfrog grad step n q0 p0 s0) as [[[q1 p1] s1]|] eqn:E; simpl;
    [|discriminate].
  destruct (nll q1 s1) as [[U1 s2]|] eqn:N1; simpl; [|discriminate].
  intros [= <-]. simpl. eapply Hnll; [|exact N1].
  eapply leapfrog_state; [exact Hgrad| |exact E]. eapply Hnll; [|exact N0]. done.
Qed.

Global Instance hmc_instance : Hmc nat := {|
  hmc := hmc_step;
  hmc_length := hmc_step_length;
  hmc_state := hmc_step_state
|}.

(** A small population over parameter records that are plain vectors: every
    edge has prior probability [pA], the log likelihood is [ll], and the
    log probability of a unit's own parameters is a standard Gaussian. *)
Definition population (N : nat) (wm : WeightModel) (latent : bool) (pA : float)
    (ll : ndarray Z -> ndarray float -> nat -> float) : Population (list float) := {|
  model_N := N;
  network_weights := wm;
  is_latent_distance_graph := latent;
  L_shape := [N; 1%nat];
  I_bias := fun _ g => take 1 g;
  I_stim := fun _ _ => [];
  I_imp := fun _ _ => [];
  graph_pA := fun _ => mk_ndarray [N; N] (replicate (N * N) pA);
  network_log_p := fun _ => 0;
  graph_log_p := fun gr =>
    match graph_L gr with
    | Some L => -0.5 * sum (np.square (data L))
    | None => 0
    end;
  g_netlp_wrt_L := fun gr =>
    match graph_L gr with
    | Some L => np.muls (-1) (data L)
    | None => []
    end;
  g_netlp_wrt_W := fun n =>
    match weights_W (weights n) with
    | Some W => np.muls (-1) (data W)
    | None => []
    end;
  glm_nlin := fun g => g;
  glm_ll := fun A W n _ _ _ _ => ll A W n;
  g_glmlp_wrt_W := fun A W n _ _ _ _ => np.zeros (length (data W));
  glm_logp := fun _ g => -0.5 * sum (np.square g);
  g_glm_logp_wrt_glm := fun _ g => np.muls (-1) g;
  pack_glm := fun g => g;
  unpack_glm := fun _ v => v;
  compute_log_p := fun _ => 0
|}.

(** A log likelihood that is Gaussian in the weights of the present edges. *)
Definition gauss_ll (A : ndarray Z) (W : ndarray float) (n : nat) : float :=
  -0.5 * sum (zip_with (fun a w => (of_Z a * w - 1) * (of_Z a * w - 1))
                       (data A) (data W)).

Definition unit_prior : WeightModel :=
  mk_WeightModel (mk_GaussianPrior 0 1) None.

(** A state of [N] units: adjacency [A], flat weights [W]. *)
Definition state (N : nat) (A : list Z) (W : list float) : State (list float) :=
  mk_State (mk_Net (mk_Graph (Some (mk_ndarray [N; N] A)) None)
                   (mk_Weights (Some (mk_ndarray [(N * N)%nat] W))))
           (replicate N [0.5]).

End Ref.

(** * Concrete populations

    Small populations on which the update rules are run. *)

(** Two units, a unit-Gaussian weight prior with no refractory prior, edge
    probability one half, and a log likelihood that is Gaussian in the
    weights. *)
Module Demo.

Import CollapsedGibbsNetworkColumnUpdate.

Local Open Scope float_scope.

#[local] Instance popn : Population (list float) :=
  Ref.population 2 Ref.unit_prior false 0.5 Ref.gauss_ll.

Definition self : t := preprocess __init__.
Definition self_with_prior : t :=
  mk true 20 hermgauss20.1 hermgauss20.2 (weight_prior self).

(** [A = [[0, 1], [0, 0]]], [W = [[0.5, 0.25], [-0.5, 1]]] stored flat. *)
Definition x : State (list float) := Ref.state 2 [0; 1; 0; 0]%Z [0.5; 0.25; -0.5; 1].
Definition p_A : ndarray float := graph_pA (net x).
Definition e0 : Eff nat := mk_Eff 0%nat [].

End Demo.

(** A model evaluator whose log likelihood is plus infinity everywhere, and
    an edge prior that gives every edge probability zero. *)
Module InfiniteLikelihood.

Import CollapsedGibbsNetworkColumnUpdate.

Local Open Scope float_scope.

#[local] Instance popn : Population (list float) :=
  Ref.population 2 Ref.unit_prior false 0 (fun _ _ _ => infinity).

Definition self : t := preprocess __init__.
Definition x : State (list float) := Ref.state 2 [0; 0; 0; 0]%Z [0.5; 0.25; -0.5; 1].

End InfiniteLikelihood.

(** An edge prior that never proposes an edge. *)
Module NeverProposed.

Import CollapsedGibbsNetworkColumnUpdate.

Local Open Scope float_scope.

#[local] Instance popn : Population (list float) :=
  Ref.population 2 Ref.unit_prior false 0 Ref.gauss_ll.

Definition self : t :=
  mk true 20 hermgauss20.1 hermgauss20.2 (weight_prior (preprocess __init__)).
Definition x : State (list float) := Ref.state 2 [0; 0; 0; 0]%Z [0.5; 0.25; -0.5; 1].

End NeverProposed.

(** A model evaluator for which the edge from unit 0 to unit 1 is
    impossible: the log likelihood is minus infinity whenever it is
    present. *)
Module ImpossibleEdge.

Import CollapsedGibbsNetworkColumnUpdate.

Local Open Scope float_scope.

Definition ll (A : ndarray Z) (W : ndarray float) (n : nat) : float :=
  match data A !! 1%nat with
  | Some 1%Z => neg_infinity
  | _ => 0
  end.

#[local] Instance popn : Population (list float) :=
  Ref.population 2 Ref.unit_prior false 0.5 ll.

Definition self (propose_from_prior : bool) : t :=
  mk propose_from_prior 20 hermgauss20.1 hermgauss20.2
     (weight_prior (preprocess __init__)).
Definition x : State (list float) := Ref.state 2 [0; 0; 0; 0]%Z [0.5; 0.25; -0.5; 1].
Definition e0 : Eff nat := mk_Eff 0%nat [].

End ImpossibleEdge.

(** * The vocabulary of the properties *)

Section vocabulary.

Context `{NumLib} {G : Type} `{RandomState G} `{Hmc G} {Glm : Type} `{Population Glm}.

Import CollapsedGibbsNetworkColumnUpdate.

Local Open Scope float_scope.

(** [A] is [N] by [N], [W] holds [N * N] weights and there are [N] unit
    records. *)
Definition well_shaped (N : nat) (x : State Glm) : Prop :=
  match graph_A (graph (net x)), weights_W (weights (net x)) with
  | Some A, Some W =>
      shape A = [N; N] /\ length (data A) = (N * N)%nat /\
      length (data W) = (N * N)%nat /\ length (glms x) = N
  | _, _ => False
  end.



(** [a] after [a[j] = f(j)] for [j] in [seq i n]. *)
Definition filled {T} (f : nat -> T) (i n : nat) (a : list T) : list T :=
  foldl (fun acc j => <[j := f j]> acc) a (seq i n).

(** The GLM log likelihood of unit [n_post] when [A[n_pre, n_post]] is
    forced to 1 and [W[n_pre, n_post]] to [w], and when [A[n_pre, n_post]]
    is forced to 0: what the evaluator returns on the arrays of [x] changed
    at that one entry. *)
Definition ll_edge_present (x : State Glm) (n_pre n_post : nat) (w : float)
    (I_bias I_stim I_imp : list float) : option float :=
  A ← graph_A (graph (net x));
  W ← weights_W (weights (net x));
  k ← offset2 (shape A) n_pre n_post;
  g ← glms x !! n_post;
  Some (glm_ll (mk_ndarray (shape A) (<[k := 1%Z]> (data A)))
               (mk_ndarray [length (data W)] (<[k := w]> (data W)))
               n_post I_bias I_stim I_imp (glm_nlin g)).

Definition ll_edge_absent (x : State Glm) (n_pre n_post : nat)
    (I_bias I_stim I_imp : list float) : option float :=
  A ← graph_A (graph (net x));
  W ← weights_W (weights (net x));
  k ← offset2 (shape A) n_pre n_post;
  g ← glms x !! n_post;
  Some (glm_ll (mk_ndarray (shape A) (<[k := 0%Z]> (data A))) W
               n_post I_bias I_stim I_imp (glm_nlin g)).

(** [logL] at the weight [w]: the log likelihood with the edge forced
    present. *)
Definition logL_at (x : State Glm) (n_pre n_post : nat)
    (I_bias I_stim I_imp : list float) (w : float) : float :=
  default nan (ll_edge_present x n_pre n_post w I_bias I_stim I_imp).

(** A summand of the quadrature: NaN becomes minus infinity. *)
Definition weighted_term (logL weight : float) : float :=
  npr.nan_to_neg_inf (logL + np_log (weight / np.sqrt np.pi)).

(** The sampler object as [__init__] builds it, whatever the proposal flag
    and the prior attributes are. *)
Definition from_init (self : t) : Prop :=
  DEG_GAUSS_HERMITE self = 20%nat /\
  GAUSS_HERMITE_ABSCISSAE self = hermgauss20.1 /\
  GAUSS_HERMITE_WEIGHTS self = hermgauss20.2.

(** A summand in [_collapsed_sample_AW_with_prior], where the log weight
    comes first. *)
Definition weighted_term_with_prior (logL weight : float) : float :=
  npr.nan_to_neg_inf (np_log (weight / np.sqrt np.pi) + logL).

(** The piecewise posterior of a present edge's weight, bin by bin: the log
    posterior at the nodes, the log density and log mass of the bin between
    nodes [k] and [k+1], the log CDF over the 19 bins, and the 21 points it
    is interpolated against. *)
Definition node_log_posterior (mu sigma : float) (W_nns log_L : list float)
    : list float :=
  zip_with (fun w l => -0.5 / (sigma * sigma) * ((w - mu) * (w - mu)) + l) W_nns log_L.

Definition bin_log_density (lp : list float) (k : nat) : float :=
  logsumexp [nth k lp 0; nth (k + 1) lp 0] - np_log 2.

Definition bin_log_mass (W_nns lp : list float) (k : nat) : float :=
  bin_log_density lp k + np_log (nth (k + 1) W_nns 0 - nth k W_nns 0).

Definition piecewise_log_cdf (W_nns lp : list float) : list float :=
  let mass := bin_log_mass W_nns lp <$> seq 0 19 in
  let mass := (fun m => m - logsumexp mass) <$> mass in
  [neg_infinity] ++ ((fun i => logsumexp (take i mass)) <$> seq 1 19) ++ [0].

Definition piecewise_points (mu sigma : float) (W_nns : list float) : list float :=
  [mu - 6 * sigma]
  ++ ((fun k => (nth (k + 1) W_nns 0 + nth k W_nns 0) / 2) <$> seq 0 19)
  ++ [mu + 6 * sigma].






(** What holds of the loop state after any number of turns. *)
Definition loop_inv (st : Loop Glm) : Prop :=
  x_smpls st = seq 0 (S (length (copies (heap st)))) /\
  (copies (heap st) = [] \/ last (copies (heap st)) = Some (live (heap st))).

End vocabulary.

(** * Properties *)

(** ** The result monad *)

Lemma bind_Ok {A B} (m : result A) (f : A -> result B) (r : B) :
  m ≫= f = Ok r -> exists a, m = Ok a /\ f a = Ok r.
Proof. destruct m as [a|e]; simpl; [eauto | discriminate]. Qed.

Lemma or_raise_Ok {T} e (o : option T) v : or_raise e o = Ok v -> o = Some v.
Proof. destruct o; simpl; congruence. Qed.

Lemma M_bind_Ok {G A B} (m : M G A) (f : A -> M G B) e r :
  (m ≫= f) e = Ok r -> exists a e', m e = Ok (a, e') /\ f a e' = Ok r.
Proof.
  unfold mbind, M_bind. destruct (m e) as [[a e']|]; [eauto | discriminate].
Qed.

Lemma lift_Ok {G T} (r : result T) (e : Eff G) v e' :
  lift r e = Ok (v, e') -> r = Ok v /\ e' = e.
Proof. unfold lift. destruct r; [intros [= -> ->]; auto | discriminate]. Qed.

(** [bind_inv H a Ha]: from [H : (m ≫= f) = Ok r] to [Ha : m = Ok a] and
    [H : f a = Ok r]. *)
Tactic Notation "bind_inv" hyp(H) simple_intropattern(a) ident(Ha) :=
  apply bind_Ok in H; destruct H as (a & Ha & H).

(** ** Arrays *)

Lemma get2_Ok {T} (a : ndarray T) i j v :
  get2 a i j = Ok v ->
  exists k, offset2 (shape a) i j = Some k /\ data a !! k = Some v.
Proof.
  unfold get2. intros H%or_raise_Ok.
  destruct (offset2 (shape a) i j) as [k|]; simpl in H; [eauto | discriminate].
Qed.

Lemma set2_Ok {T} (a b : ndarray T) i j v :
  set2 a i j v = Ok b ->
  exists k, offset2 (shape a) i j = Some k /\ k < length (data a) /\
            b = mk_ndarray (shape a) (<[k := v]> (data a)).
Proof.
  unfold set2. intros (k & Hk%or_raise_Ok & H)%bind_Ok.
  case_decide; [|discriminate]. injection H as <-. eauto.
Qed.

Lemma set2_total {T} (a : ndarray T) i j v k :
  offset2 (shape a) i j = Some k -> k < length (data a) ->
  set2 a i j v = Ok (mk_ndarray (shape a) (<[k := v]> (data a))).
Proof. unfold set2. intros -> ?. simpl. case_decide; [done | lia]. Qed.

Lemma get2_total {T} (a : ndarray T) i j k :
  offset2 (shape a) i j = Some k -> k < length (data a) ->
  exists v, get2 a i j = Ok v /\ data a !! k = Some v.
Proof.
  unfold get2. intros -> Hk. simpl.
  destruct (lookup_lt_is_Some_2 _ _ Hk) as [v Hv]. rewrite Hv. eauto.
Qed.

Lemma offset2_lt N i j : i < N -> j < N -> exists k, offset2 [N; N] i j = Some k /\ k < N * N.
Proof.
  intros Hi Hj. exists (i * N + j). simpl. case_decide; [|lia]. split; [done | nia].
Qed.

(** Writing a value and then writing the old value back restores the
    array. *)
Lemma set2_restore {T} (a a1 : ndarray T) i j v0 v :
  get2 a i j = Ok v0 -> set2 a i j v = Ok a1 -> set2 a1 i j v0 = Ok a.
Proof.
  intros (k & Hk & Hv)%get2_Ok (k' & Hk' & Hlt & ->)%set2_Ok.
  rewrite Hk in Hk'. injection Hk' as <-.
  rewrite (set2_total _ i j v0 k); simpl; [|done|by rewrite length_insert].
  rewrite list_insert_insert_eq, list_insert_id by done. by destruct a.
Qed.

Lemma reshape_Ok {T} (a b : ndarray T) sh :
  reshape a sh = Ok b -> b = mk_ndarray sh (data a) /\ size_of sh = length (data a).
Proof. unfold reshape. case_decide; [|discriminate]. by intros [= <-]. Qed.

(** ** Loops that fill arrays *)

Lemma filled_length {T} (f : nat -> T) n : forall i a, length (filled f i n a) = length a.
Proof.
  induction n as [|n IH]; intros i a; [done|].
  unfold filled in *. simpl. rewrite IH. apply length_insert.
Qed.

Lemma filled_lookup {T} (f : nat -> T) n : forall i a j,
  i + n <= length a ->
  filled f i n a !! j = if decide (i <= j < i + n) then Some (f j) else a !! j.
Proof.
  induction n as [|n IH]; intros i a j Hle.
  - simpl. case_decide; [lia | done].
  - unfold filled in *. simpl. rewrite IH by (rewrite length_insert; lia).
    destruct (decide (i = j)) as [->|Hne].
    + rewrite decide_False by lia. rewrite decide_True by lia.
      apply list_lookup_insert_eq. lia.
    + rewrite list_lookup_insert_ne by done.
      repeat case_decide; try done; lia.
Qed.

Lemma filled_all {T} (f : nat -> T) (a : list T) :
  filled f 0 (length a) a = f <$> seq 0 (length a).
Proof.
  apply list_eq. intros j. rewrite filled_lookup by lia.
  rewrite list_lookup_fmap. destruct (decide (j < length a)) as [Hj|Hj].
  - rewrite decide_True by lia.
    by rewrite (proj2 (lookup_seq 0 (length a) j j)) by (split; [done | lia]).
  - rewrite decide_False by lia. rewrite lookup_ge_None_2 by lia.
    by rewrite lookup_ge_None_2 by (rewrite length_seq; lia).
Qed.

Lemma for_in_filled2 {T X : Type} (d : nat) (f g : nat -> T) (x : X)
    (body : nat -> list T * list T * X -> result (list T * list T * X)) :
  (forall i a b, i < d -> length a = d -> length b = d ->
     body i (a, b, x) = Ok (<[i := f i]> a, <[i := g i]> b, x)) ->
  forall n i a b, i + n = d -> length a = d -> length b = d ->
    for_in (seq i n) body (a, b, x) = Ok (filled f i n a, filled g i n b, x).
Proof.
  intros Hbody. induction n as [|n IH]; intros i a b Hd Ha Hb; [done|].
  simpl. rewrite Hbody by (done || lia). simpl.
  rewrite IH by (rewrite ?length_insert; done || lia). done.
Qed.

Lemma for_in_filled1 {T X : Type} (d : nat) (f : nat -> T) (x : X)
    (body : nat -> list T * X -> result (list T * X)) :
  (forall i a, i < d -> length a = d -> body i (a, x) = Ok (<[i := f i]> a, x)) ->
  forall n i a, i + n = d -> length a = d ->
    for_in (seq i n) body (a, x) = Ok (filled f i n a, x).
Proof.
  intros Hbody. induction n as [|n IH]; intros i a Hd Ha; [done|].
  simpl. rewrite Hbody by (done || lia). simpl.
  rewrite IH by (rewrite ?length_insert; done || lia). done.
Qed.

Lemma fmap_seq_lookup {T U} (h : T -> U) (l : list T) (dflt : T) :
  (fun i => h (nth i l dflt)) <$> seq 0 (length l) = h <$> l.
Proof.
  apply list_eq. intros j. rewrite !list_lookup_fmap.
  destruct (l !! j) as [v|] eqn:Hj.
  - pose proof (lookup_lt_Some _ _ _ Hj) as Hlt.
    rewrite (proj2 (lookup_seq 0 (length l) j j)) by (split; [done | lia]). simpl.
    by rewrite (nth_lookup_Some _ _ _ _ Hj).
  - pose proof (lookup_ge_None_1 _ _ Hj) as Hge.
    by rewrite lookup_ge_None_2 by (rewrite length_seq; lia).
Qed.

(** ** The likelihood probes of the collapsed update *)

Section probes.

Context `{NumLib} {G : Type} `{RandomState G} {Glm : Type} `{Population Glm}.

Import CollapsedGibbsNetworkColumnUpdate.

Lemma set_A_id (x : State Glm) A :
  graph_A (graph (net x)) = Some A -> set_A x A = x.
Proof. destruct x as [[[a l] w] g]. simpl. by intros ->. Qed.

Lemma set_W_id (x : State Glm) W :
  weights_W (weights (net x)) = Some W -> set_W x W = x.
Proof. destruct x as [[gr [w]] g]. simpl. by intros ->. Qed.

Lemma set_W_set_W (x : State Glm) W1 W2 : set_W (set_W x W1) W2 = set_W x W2.
Proof. reflexivity. Qed.

Lemma set_A_set_A (x : State Glm) A1 A2 : set_A (set_A x A1) A2 = set_A x A2.
Proof. reflexivity. Qed.

Lemma set_A_set_W (x : State Glm) A W : set_A (set_W x W) A = set_W (set_A x A) W.
Proof. reflexivity. Qed.

Lemma x_A_Ok (x : State Glm) A : x_A x = Ok A -> graph_A (graph (net x)) = Some A.
Proof. apply or_raise_Ok. Qed.

Lemma x_W_Ok (x : State Glm) W : x_W x = Ok W -> weights_W (weights (net x)) = Some W.
Proof. apply or_raise_Ok. Qed.

Lemma W_assign_Ok (x x' : State Glm) A i j w :
  W_assign x A i j w = Ok x' ->
  exists W0 k, weights_W (weights (net x)) = Some W0 /\
    offset2 (shape A) i j = Some k /\ k < length (data W0) /\
    size_of (shape A) = length (data W0) /\
    x' = set_W x (mk_ndarray (shape W0) (<[k := w]> (data W0))).
Proof.
  unfold W_assign. intros HE.
  bind_inv HE W0 HW0. bind_inv HE Wv HWv. bind_inv HE Wv1 HWv1.
  apply x_W_Ok in HW0. apply reshape_Ok in HWv as [-> Hsz].
  apply set2_Ok in HWv1 as (k & Hk & Hlt & ->). simpl in *.
  injection HE as <-. exists W0, k. eauto 6.
Qed.

Lemma W_assign_total (x : State Glm) A i j w W0 k :
  weights_W (weights (net x)) = Some W0 ->
  offset2 (shape A) i j = Some k -> k < length (data W0) ->
  size_of (shape A) = length (data W0) ->
  W_assign x A i j w = Ok (set_W x (mk_ndarray (shape W0) (<[k := w]> (data W0)))).
Proof.
  intros HW Hk Hlt Hsz. unfold W_assign, x_W. rewrite HW. simpl.
  unfold reshape. rewrite decide_True by done. simpl.
  by rewrite (set2_total _ i j w k).
Qed.

(** What [_glm_ll_A] returns when it returns: the likelihood with the edge
    forced present at weight [w], and the state it was given. *)
Lemma _glm_ll_A_Ok n_pre n_post w (x x' : State Glm) Ib Is Ii ll :
  _glm_ll_A n_pre n_post w x Ib Is Ii = Ok (ll, x') ->
  x' = x /\ ll_edge_present x n_pre n_post w Ib Is Ii = Some ll.
Proof.
  unfold _glm_ll_A. intros HE.
  bind_inv HE A HA. bind_inv HE A_init HAi. bind_inv HE A1 HA1.
  bind_inv HE Wv HWv. bind_inv HE W_init HWi. bind_inv HE x1 Hx1.
  bind_inv HE Wv1 HWv1. bind_inv HE g Hg. bind_inv HE A2 HA2.
  bind_inv HE x2 Hx2. injection HE as <- <-.
  apply x_A_Ok in HA.
  pose proof (set2_restore _ _ _ _ _ _ HAi HA1) as Hback.
  rewrite Hback in HA2. injection HA2 as <-.
  apply get2_Ok in HAi as (k & Hk & HAk).
  apply set2_Ok in HA1 as (k' & Hk' & Hlt & ->).
  rewrite Hk in Hk'. injection Hk' as <-.
  unfold W_view in HWv. bind_inv HWv W0 HW0. apply x_W_Ok in HW0. simpl in HW0.
  apply reshape_Ok in HWv as [-> Hsz]. simpl in *.
  apply get2_Ok in HWi as (k' & Hk' & HWk). simpl in *.
  rewrite Hk in Hk'. injection Hk' as <-.
  apply W_assign_Ok in Hx1 as (W0' & k' & HW0' & Hk' & Hlt' & _ & ->). simpl in *.
  rewrite HW0 in HW0'. injection HW0' as <-.
  rewrite Hk in Hk'. injection Hk' as <-.
  unfold W_view, x_W in HWv1. simpl in HWv1. apply reshape_Ok in HWv1 as [-> _].
  simpl in *. unfold npr.getitem in Hg. apply or_raise_Ok in Hg.
  apply W_assign_Ok in Hx2 as (W1 & k' & HW1 & Hk' & _ & _ & ->). simpl in *.
  injection HW1 as <-. simpl in *.
  rewrite Hk in Hk'. injection Hk' as <-.
  split.
  - rewrite list_insert_insert_eq, (list_insert_id (data W0) k W_init) by done.
    destruct x as [[[gA gL] [wW]] gl]. simpl in *. subst gA wW.
    unfold set_W, set_A. simpl. by destruct W0.
  - unfold ll_edge_present. rewrite HA, HW0. simpl. rewrite Hk. simpl.
    rewrite Hg. simpl. unfold ravel. simpl. by rewrite length_insert.
Qed.

Lemma _glm_ll_noA_Ok n_pre n_post (x x' : State Glm) Ib Is Ii ll :
  _glm_ll_noA n_pre n_post x Ib Is Ii = Ok (ll, x') ->
  x' = x /\ ll_edge_absent x n_pre n_post Ib Is Ii = Some ll.
Proof.
  unfold _glm_ll_noA. intros HE.
  bind_inv HE A HA. bind_inv HE A_init HAi. bind_inv HE A1 HA1.
  bind_inv HE W HW. bind_inv HE g Hg. bind_inv HE A2 HA2.
  injection HE as <- <-.
  apply x_A_Ok in HA.
  pose proof (set2_restore _ _ _ _ _ _ HAi HA1) as Hback.
  rewrite Hback in HA2. injection HA2 as <-.
  apply get2_Ok in HAi as (k & Hk & HAk).
  apply set2_Ok in HA1 as (k' & Hk' & Hlt & ->).
  rewrite Hk in Hk'. injection Hk' as <-.
  apply x_W_Ok in HW. simpl in HW.
  unfold npr.getitem in Hg. apply or_raise_Ok in Hg. simpl in Hg.
  split.
  - rewrite set_A_set_A. by apply set_A_id.
  - unfold ll_edge_absent. rewrite HA, HW. simpl. rewrite Hk. simpl.
    by rewrite Hg.
Qed.

Lemma get2_eq {T} (a : ndarray T) i j k v :
  offset2 (shape a) i j = Some k -> data a !! k = Some v -> get2 a i j = Ok v.
Proof. unfold get2. intros -> Hv. simpl. by rewrite Hv. Qed.

Lemma reshape_eq {T} (a : ndarray T) sh :
  size_of sh = length (data a) -> reshape a sh = Ok (mk_ndarray sh (data a)).
Proof. intros. unfold reshape. by rewrite decide_True. Qed.

Lemma W_view_eq (x : State Glm) A W0 :
  weights_W (weights (net x)) = Some W0 -> size_of (shape A) = length (data W0) ->
  W_view x A = Ok (mk_ndarray (shape A) (data W0)).
Proof. intros HW Hsz. unfold W_view, x_W. rewrite HW. simpl. by apply reshape_eq. Qed.

(** On a well-shaped state both probes return. *)
Lemma _glm_ll_A_total N n_pre n_post w (x : State Glm) Ib Is Ii :
  well_shaped N x -> n_pre < N -> n_post < N ->
  exists ll, _glm_ll_A n_pre n_post w x Ib Is Ii = Ok (ll, x).
Proof.
  intros Hx Hi Hj. unfold well_shaped in Hx.
  destruct (graph_A (graph (net x))) as [A|] eqn:HA; [|done].
  destruct (weights_W (weights (net x))) as [W|] eqn:HW; [|done].
  destruct Hx as (HshA & HlA & HlW & Hg).
  destruct (offset2_lt N n_pre n_post Hi Hj) as (k & Hk & Hlt).
  rewrite <- HshA in Hk.
  destruct (lookup_lt_is_Some_2 (glms x) n_post) as [g Hgn]; [lia|].
  destruct (lookup_lt_is_Some_2 (data A) k) as [a0 Ha0]; [lia|].
  destruct (lookup_lt_is_Some_2 (data W) k) as [w0 Hw0]; [lia|].
  assert (Hsz : size_of (shape A) = length (data W)).
  { rewrite HshA. simpl. lia. }
  destruct (_glm_ll_A n_pre n_post w x Ib Is Ii) as [[ll x']|e] eqn:E.
  { apply _glm_ll_A_Ok in E as [-> _]. eauto. }
  exfalso. revert E. unfold _glm_ll_A, x_A. rewrite HA. simpl.
  rewrite (get2_eq A _ _ k a0) by done. simpl.
  rewrite (set2_total A n_pre n_post 1%Z k) by (done || lia). simpl.
  rewrite (W_view_eq _ _ W) by done. simpl.
  rewrite (get2_eq _ _ _ k w0) by done. simpl.
  rewrite (W_assign_total _ _ _ _ _ W k) by (done || lia). simpl.
  rewrite (W_view_eq _ _ (mk_ndarray (shape W) (<[k:=w]> (data W))))
    by (simpl; rewrite ?length_insert; done). simpl.
  unfold npr.getitem. rewrite Hgn. simpl.
  rewrite (set2_total _ n_pre n_post a0 k) by (simpl; rewrite ?length_insert; done || lia).
  simpl.
  rewrite (W_assign_total _ _ _ _ _ (mk_ndarray (shape W) (<[k:=w]> (data W))) k)
    by (simpl; rewrite ?length_insert; done || lia).
  simpl. discriminate.
Qed.

Lemma _glm_ll_noA_total N n_pre n_post (x : State Glm) Ib Is Ii :
  well_shaped N x -> n_pre < N -> n_post < N ->
  exists ll, _glm_ll_noA n_pre n_post x Ib Is Ii = Ok (ll, x).
Proof.
  intros Hx Hi Hj. unfold well_shaped in Hx.
  destruct (graph_A (graph (net x))) as [A|] eqn:HA; [|done].
  destruct (weights_W (weights (net x))) as [W|] eqn:HW; [|done].
  destruct Hx as (HshA & HlA & HlW & Hg).
  destruct (offset2_lt N n_pre n_post Hi Hj) as (k & Hk & Hlt).
  rewrite <- HshA in Hk.
  destruct (lookup_lt_is_Some_2 (glms x) n_post) as [g Hgn]; [lia|].
  destruct (lookup_lt_is_Some_2 (data A) k) as [a0 Ha0]; [lia|].
  destruct (_glm_ll_noA n_pre n_post x Ib Is Ii) as [[ll x']|e] eqn:E.
  { apply _glm_ll_noA_Ok in E as [-> _]. eauto. }
  exfalso. revert E. unfold _glm_ll_noA, x_A. rewrite HA. simpl.
  rewrite (get2_eq A _ _ k a0) by done. simpl.
  rewrite (set2_total A n_pre n_post 0%Z k) by (done || lia). simpl.
  unfold x_W. simpl. rewrite HW. simpl.
  unfold npr.getitem. rewrite Hgn. simpl.
  rewrite (set2_total _ n_pre n_post a0 k) by (simpl; rewrite ?length_insert; done || lia).
  simpl. discriminate.
Qed.
End probes.

(** ** The quadrature loop *)

Section quadrature_props.

Context `{NumLib} {G : Type} `{RandomState G} {Glm : Type} `{Population Glm}.

Import CollapsedGibbsNetworkColumnUpdate.

Local Open Scope float_scope.

Lemma getitem_nth {T} (l : list T) i d :
  (i < length l)%nat -> npr.getitem l i = Ok (nth i l d).
Proof.
  intros Hi. unfold npr.getitem.
  destruct (lookup_lt_is_Some_2 l i Hi) as [v Hv].
  rewrite Hv. simpl. by rewrite (nth_lookup_Some _ _ _ _ Hv).
Qed.

Lemma setitem_eq {T} (l : list T) i v :
  (i < length l)%nat -> npr.setitem l i v = Ok (<[i := v]> l).
Proof. intros. unfold npr.setitem. by rewrite decide_True. Qed.

Lemma getitem_insert {T} (l : list T) i v :
  (i < length l)%nat -> npr.getitem (<[i := v]> l) i = Ok v.
Proof. intros. unfold npr.getitem. by rewrite list_lookup_insert_eq. Qed.

Lemma _glm_ll_A_eq N n_pre n_post w (x : State Glm) Ib Is Ii :
  well_shaped N x -> (n_pre < N)%nat -> (n_post < N)%nat ->
  _glm_ll_A n_pre n_post w x Ib Is Ii = Ok (logL_at x n_pre n_post Ib Is Ii w, x).
Proof.
  intros Hx Hi Hj.
  destruct (_glm_ll_A_total N n_pre n_post w x Ib Is Ii Hx Hi Hj) as [ll Hll].
  rewrite Hll. apply _glm_ll_A_Ok in Hll as [_ Hll].
  unfold logL_at. by rewrite Hll.
Qed.

Lemma quadrature_step_eq N (self : t) n_pre n_post Ib Is Ii W_nns (x : State Glm) i a b :
  well_shaped N x -> (n_pre < N)%nat -> (n_post < N)%nat ->
  (i < length W_nns)%nat -> (i < length (GAUSS_HERMITE_WEIGHTS self))%nat ->
  (i < length a)%nat -> (i < length b)%nat ->
  quadrature_step self n_pre n_post Ib Is Ii W_nns i (a, b, x) =
  Ok (<[i := logL_at x n_pre n_post Ib Is Ii (nth i W_nns 0)]> a,
      <[i := weighted_term (logL_at x n_pre n_post Ib Is Ii (nth i W_nns 0))
                           (nth i (GAUSS_HERMITE_WEIGHTS self) 0)]> b,
      x).
Proof.
  intros Hx Hi Hj HiW Hiw Hia Hib. unfold quadrature_step.
  rewrite (getitem_nth (GAUSS_HERMITE_WEIGHTS self) i 0) by done.
  cbn [mbind result_bind].
  rewrite (getitem_nth W_nns i 0) by done. cbn [mbind result_bind].
  rewrite (_glm_ll_A_eq N) by done. cbn [mbind result_bind].
  set (l := logL_at _ _ _ _ _ _ _).
  set (wt := nth i (GAUSS_HERMITE_WEIGHTS self) 0).
  rewrite (getitem_nth b i 0) by done.
  rewrite (setitem_eq a i l) by done. cbn [mbind result_bind].
  assert (Hlen : forall b' : list float,
            length b' = length b -> (i < length b')%nat) by (intros ? ->; done).
  destruct (np.isnan (nth i b 0));
    [rewrite (setitem_eq b i) by done|];
    cbn [mbind result_bind];
    (rewrite getitem_insert by done; cbn [mbind result_bind];
     rewrite setitem_eq by (apply Hlen; by rewrite ?length_insert);
     cbn [mbind result_bind];
     rewrite getitem_insert by (apply Hlen; by rewrite ?length_insert);
     cbn [mbind result_bind];
     unfold weighted_term, npr.nan_to_neg_inf;
     destruct (np.isnan _);
     [rewrite setitem_eq by (apply Hlen; by rewrite ?length_insert);
      cbn [mbind result_bind]|];
     by rewrite ?list_insert_insert_eq).
Qed.

Lemma quadrature_eq N (self : t) n_pre n_post Ib Is Ii W_nns (x : State Glm) :
  well_shaped N x -> (n_pre < N)%nat -> (n_post < N)%nat ->
  length W_nns = DEG_GAUSS_HERMITE self ->
  length (GAUSS_HERMITE_WEIGHTS self) = DEG_GAUSS_HERMITE self ->
  quadrature self n_pre n_post Ib Is Ii W_nns x =
  Ok (logL_at x n_pre n_post Ib Is Ii <$> W_nns,
      zip_with weighted_term (logL_at x n_pre n_post Ib Is Ii <$> W_nns)
               (GAUSS_HERMITE_WEIGHTS self),
      x).
Proof.
  intros Hx Hi Hj HW Hw. unfold quadrature.
  set (d := DEG_GAUSS_HERMITE self) in *.
  rewrite (for_in_filled2 d
             (fun i => logL_at x n_pre n_post Ib Is Ii (nth i W_nns 0))
             (fun i => weighted_term (logL_at x n_pre n_post Ib Is Ii (nth i W_nns 0))
                                     (nth i (GAUSS_HERMITE_WEIGHTS self) 0)));
    try (unfold np.zeros; rewrite length_replicate); try done.
  2:{ intros i a b Hid Ha Hb. apply (quadrature_step_eq N); try done; lia. }
  f_equal. f_equal. f_equal.
  - replace d with (length (np.zeros d)) at 1
      by (unfold np.zeros; by rewrite length_replicate).
    rewrite filled_all. unfold np.zeros. rewrite length_replicate, <- HW.
    apply fmap_seq_lookup.
  - replace d with (length (np.zeros d)) at 1
      by (unfold np.zeros; by rewrite length_replicate).
    rewrite filled_all. unfold np.zeros. rewrite length_replicate.
    apply list_eq. intros j. rewrite list_lookup_fmap, lookup_zip_with, list_lookup_fmap.
    destruct (decide (j < d)%nat) as [Hjd|Hjd].
    + rewrite (proj2 (lookup_seq 0 d j j)) by (split; [done | lia]). simpl.
      destruct (lookup_lt_is_Some_2 W_nns j) as [wn Hwn]; [lia|].
      destruct (lookup_lt_is_Some_2 (GAUSS_HERMITE_WEIGHTS self) j) as [wt Hwt]; [lia|].
      rewrite Hwn, Hwt. simpl.
      by rewrite (nth_lookup_Some _ _ _ _ Hwn), (nth_lookup_Some _ _ _ _ Hwt).
    + rewrite lookup_ge_None_2 by (rewrite length_seq; lia).
      rewrite (lookup_ge_None_2 W_nns) by lia. done.
Qed.

End quadrature_props.

(** ** The collapsed update *)

Section collapsed_claims.

Context `{NumLib} {G : Type} `{RandomState G} {Glm : Type} `{Population Glm}.

Import CollapsedGibbsNetworkColumnUpdate.

Local Open Scope float_scope.

Lemma lift_bind {T U} (r : result T) (v : T) (f : T -> M G U) (e : Eff G) :
  r = Ok v -> (lift r ≫= f) e = f v e.
Proof. intros ->. reflexivity. Qed.

Lemma W_nns_of_eq (self : t) mu sigma :
  W_nns_of self mu sigma =
  (fun x_k => np.sqrt 2 * sigma * x_k + mu) <$> GAUSS_HERMITE_ABSCISSAE self.
Proof. unfold W_nns_of, np.adds, np.muls. by rewrite <- list_fmap_compose. Qed.

Lemma well_shaped_W_view N (x : State Glm) A :
  well_shaped N x -> graph_A (graph (net x)) = Some A ->
  exists W0, weights_W (weights (net x)) = Some W0 /\
             W_view x A = Ok (mk_ndarray (shape A) (data W0)).
Proof.
  unfold well_shaped. intros Hx HA. rewrite HA in Hx.
  destruct (weights_W (weights (net x))) as [W0|] eqn:HW; [|done].
  destruct Hx as (Hsh & _ & HlW & _). exists W0. split; [done|].
  apply W_view_eq; [done|]. rewrite Hsh. simpl. lia.
Qed.

(** C1. In [_collapsed_sample_AW] the marginal likelihood under edge
    presence is the 20-point Gauss-Hermite sum: the nodes [x_k] become the
    weights [w_k = sqrt(2) * sigma * x_k + mu], [logL_k] is the GLM log
    likelihood with [A[i,j] = 1] and [W[i,j] = w_k], and the [log_G] that
    enters the decision on [A[i,j]] is the logsumexp of the summands
    [logL_k + log(weight_k / sqrt(pi))] (a NaN summand counting as minus
    infinity; when no summand is NaN, exactly of those sums). *)
Theorem collapsed_log_G_is_gauss_hermite
    N (self : t) n_pre n_post (x : State Glm) Ib Is Ii p_A mu sigma p :
  from_init self ->
  well_shaped N x -> (n_pre < N)%nat -> (n_post < N)%nat ->
  select_prior self n_pre n_post = Ok (mu, sigma) ->
  get2 p_A n_pre n_post = Ok p ->
  let w := (fun x_k => np.sqrt 2 * sigma * x_k + mu) <$> hermgauss20.1 in
  let logL := logL_at x n_pre n_post Ib Is Ii <$> w in
  let summand := fun l weight => l + np_log (weight / np.sqrt np.pi) in
  let log_G := logsumexp (zip_with weighted_term logL hermgauss20.2) in
  length w = 20%nat /\ length logL = 20%nat /\
  quadrature self n_pre n_post Ib Is Ii w x =
    Ok (logL, zip_with weighted_term logL hermgauss20.2, x) /\
  (forall e,
     _collapsed_sample_AW self n_pre n_post x Ib Is Ii p_A e =
     (x' ← decide_A n_pre n_post (np_log p) (np_log (1.0 - p)) log_G x Ib Is Ii;
      resample_W self n_pre n_post mu sigma w logL x' Ib Is Ii) e) /\
  (Forall (fun s => np.isnan s = false) (zip_with summand logL hermgauss20.2) ->
   log_G = logsumexp (zip_with summand logL hermgauss20.2)).
Proof.
  intros (Hdeg & Habs & Hwts) Hx Hi Hj Hprior Hp w logL summand log_G.
  assert (Hw : length w = 20%nat) by reflexivity.
  assert (Hq : quadrature self n_pre n_post Ib Is Ii w x =
               Ok (logL, zip_with weighted_term logL hermgauss20.2, x)).
  { rewrite <- Hwts. apply (quadrature_eq N); try done;
      rewrite ?Hwts, Hdeg; reflexivity. }
  split; [done|]. split; [unfold logL; by rewrite length_fmap|].
  split; [done|]. split.
  - intros e. unfold _collapsed_sample_AW.
    rewrite (lift_bind _ _ _ _ Hprior).
    pose proof Hx as Hx'. unfold well_shaped in Hx'.
    destruct (graph_A (graph (net x))) as [A|] eqn:HA; [|done].
    rewrite (lift_bind (x_A x) A) by (unfold x_A; by rewrite HA).
    destruct (well_shaped_W_view N x A Hx HA) as (W0 & HW0 & HWv).
    rewrite (lift_bind _ _ _ _ HWv), (lift_bind _ _ _ _ Hp).
    rewrite W_nns_of_eq, Habs. fold w.
    by rewrite (lift_bind _ _ _ _ Hq).
  - intros Hnan. unfold log_G. f_equal.
    apply list_eq. intros k. rewrite !lookup_zip_with.
    destruct (logL !! k) as [l|] eqn:Hl; [|done].
    destruct (hermgauss20.2 !! k) as [wt|] eqn:Hwt; [|done].
    cbn [mbind option_bind]. f_equal. unfold weighted_term, npr.nan_to_neg_inf. fold (summand l wt).
    rewrite Forall_lookup in Hnan. rewrite (Hnan k (summand l wt)); [done|].
    by rewrite lookup_zip_with, Hl, Hwt.
Qed.

End collapsed_claims.

Section collapsed_claims2.

Context `{NumLib} {G : Type} `{RandomState G} {Glm : Type} `{Population Glm}.

Import CollapsedGibbsNetworkColumnUpdate.

Local Open Scope float_scope.

(** C10. The two likelihood probes give back the state they were given:
    whenever [_glm_ll_A] or [_glm_ll_noA] returns, [A[n_pre, n_post]] and
    [W[n_pre, n_post]] hold their values from before the call, and so does
    the rest of [x]; on a well-shaped state with indices in range both
    return. *)
Theorem glm_ll_probes_preserve_state
    N n_pre n_post w (x : State Glm) Ib Is Ii :
  (forall ll x', _glm_ll_A n_pre n_post w x Ib Is Ii = Ok (ll, x') -> x' = x) /\
  (forall ll x', _glm_ll_noA n_pre n_post x Ib Is Ii = Ok (ll, x') -> x' = x) /\
  (well_shaped N x -> (n_pre < N)%nat -> (n_post < N)%nat ->
   (exists ll, _glm_ll_A n_pre n_post w x Ib Is Ii = Ok (ll, x) /\
               ll_edge_present x n_pre n_post w Ib Is Ii = Some ll) /\
   (exists ll, _glm_ll_noA n_pre n_post x Ib Is Ii = Ok (ll, x) /\
               ll_edge_absent x n_pre n_post Ib Is Ii = Some ll)).
Proof.
  split; [|split].
  - intros ll x' Hr. by apply _glm_ll_A_Ok in Hr as [-> _].
  - intros ll x' Hr. by apply _glm_ll_noA_Ok in Hr as [-> _].
  - intros Hx Hi Hj. split.
    + destruct (_glm_ll_A_total N n_pre n_post w x Ib Is Ii Hx Hi Hj) as [ll Hll].
      exists ll. split; [done|]. by apply _glm_ll_A_Ok in Hll as [_ ?].
    + destruct (_glm_ll_noA_total N n_pre n_post x Ib Is Ii Hx Hi Hj) as [ll Hll].
      exists ll. split; [done|]. by apply _glm_ll_noA_Ok in Hll as [_ ?].
Qed.

(** C6 as amended.  On the diagonal the collapsed update takes the pair
    [(mu_w_ref, sigma_w_ref)], off it the pair [(mu_w, sigma_w)];
    [preprocess] fills the first from the refractory prior when the weight
    model has one and from the standard prior otherwise. *)
Theorem self_loop_prior_is_refractory_or_standard (self : t) (i j : nat) :
  let standard := (prior_mu (prior network_weights),
                   prior_sigma (prior network_weights)) in
  select_prior (preprocess self) i i =
    Ok (match refractory_prior network_weights with
        | Some ref => (prior_mu ref, prior_sigma ref)
        | None => standard
        end) /\
  (i <> j -> select_prior (preprocess self) i j = Ok standard).
Proof.
  intros standard. unfold select_prior, preprocess. simpl. split.
  - rewrite decide_True by done. by destruct (refractory_prior network_weights).
  - intros Hij. rewrite decide_False by done.
    by destruct (refractory_prior network_weights).
Qed.



Lemma quadrature_with_prior_step_eq
    N (self : t) n_pre n_post Ib Is Ii W_nns (x : State Glm) i a :
  well_shaped N x -> (n_pre < N)%nat -> (n_post < N)%nat ->
  (i < length W_nns)%nat -> (i < length (GAUSS_HERMITE_WEIGHTS self))%nat ->
  (i < length a)%nat ->
  quadrature_with_prior_step self n_pre n_post Ib Is Ii W_nns i (a, x) =
  Ok (<[i := weighted_term_with_prior
               (logL_at x n_pre n_post Ib Is Ii (nth i W_nns 0))
               (nth i (GAUSS_HERMITE_WEIGHTS self) 0)]> a, x).
Proof.
  intros Hx Hi Hj HiW Hiw Hia. unfold quadrature_with_prior_step.
  rewrite (getitem_nth (GAUSS_HERMITE_WEIGHTS self) i 0) by done.
  cbn [mbind result_bind].
  rewrite (getitem_nth W_nns i 0) by done. cbn [mbind result_bind].
  rewrite (_glm_ll_A_eq N) by done. cbn [mbind result_bind].
  rewrite setitem_eq by done. cbn [mbind result_bind].
  rewrite getitem_insert by done. cbn [mbind result_bind].
  unfold weighted_term_with_prior, npr.nan_to_neg_inf.
  destruct (np.isnan _).
  - rewrite setitem_eq by (by rewrite length_insert). cbn [mbind result_bind].
    by rewrite list_insert_insert_eq.
  - done.
Qed.

Lemma quadrature_with_prior_eq N (self : t) n_pre n_post Ib Is Ii W_nns (x : State Glm) :
  well_shaped N x -> (n_pre < N)%nat -> (n_post < N)%nat ->
  length W_nns = DEG_GAUSS_HERMITE self ->
  length (GAUSS_HERMITE_WEIGHTS self) = DEG_GAUSS_HERMITE self ->
  quadrature_with_prior self n_pre n_post Ib Is Ii W_nns x =
  Ok (zip_with weighted_term_with_prior (logL_at x n_pre n_post Ib Is Ii <$> W_nns)
               (GAUSS_HERMITE_WEIGHTS self),
      x).
Proof.
  intros Hx Hi Hj HW Hw. unfold quadrature_with_prior.
  set (d := DEG_GAUSS_HERMITE self) in *.
  rewrite (for_in_filled1 d
             (fun i => weighted_term_with_prior
                         (logL_at x n_pre n_post Ib Is Ii (nth i W_nns 0))
                         (nth i (GAUSS_HERMITE_WEIGHTS self) 0)));
    try (unfold np.zeros; rewrite length_replicate); try done.
  2:{ intros i a Hid Ha. apply (quadrature_with_prior_step_eq N); try done; lia. }
  f_equal. f_equal.
  replace d with (length (np.zeros d)) at 1
    by (unfold np.zeros; by rewrite length_replicate).
  rewrite filled_all. unfold np.zeros. rewrite length_replicate.
  apply list_eq. intros j. rewrite list_lookup_fmap, lookup_zip_with, list_lookup_fmap.
  destruct (decide (j < d)%nat) as [Hjd|Hjd].
  - rewrite (proj2 (lookup_seq 0 d j j)) by (split; [done | lia]). simpl.
    destruct (lookup_lt_is_Some_2 W_nns j) as [wn Hwn]; [lia|].
    destruct (lookup_lt_is_Some_2 (GAUSS_HERMITE_WEIGHTS self) j) as [wt Hwt]; [lia|].
    rewrite Hwn, Hwt. simpl.
    by rewrite (nth_lookup_Some _ _ _ _ Hwn), (nth_lookup_Some _ _ _ _ Hwt).
  - rewrite lookup_ge_None_2 by (rewrite length_seq; lia).
    rewrite (lookup_ge_None_2 W_nns) by lia. done.
Qed.



End collapsed_claims2.

(** ** The weight of a present edge *)

Section weight_posterior.

Context `{NumLib} {G : Type} `{RandomState G} {Glm : Type} `{Population Glm}.

Import CollapsedGibbsNetworkColumnUpdate.

Local Open Scope float_scope.

Lemma lookup_nth {T} (l : list T) i d : (i < length l)%nat -> l !! i = Some (nth i l d).
Proof.
  intros Hi. destruct (lookup_lt_is_Some_2 l i Hi) as [v Hv].
  by rewrite (nth_lookup_Some _ _ _ _ Hv).
Qed.

Lemma pair_at_nth (l : list float) k :
  (k + 1 < length l)%nat -> np.pair_at k l = [nth k l 0; nth (k + 1) l 0].
Proof.
  intros Hk. unfold np.pair_at. apply list_eq. intros j.
  rewrite lookup_take, lookup_drop.
  destruct j as [|[|j]]; simpl.
  - rewrite Nat.add_0_r. apply lookup_nth. lia.
  - apply lookup_nth. lia.
  - done.
Qed.

Lemma zip_from1_butlast (f : float -> float -> float) (l : list float) :
  zip_with f (np.from1 l) (np.butlast l) =
  (fun k => f (nth (k + 1) l 0) (nth k l 0)) <$> seq 0 (length l - 1).
Proof.
  unfold np.from1, np.butlast. apply list_eq. intros j.
  rewrite lookup_zip_with, lookup_drop, lookup_take, list_lookup_fmap.
  destruct (decide (j < length l - 1)%nat) as [Hj|Hj].
  - rewrite (proj2 (lookup_seq 0 (length l - 1) j j)) by (split; [done | lia]).
    rewrite (lookup_nth l (1 + j) 0), (lookup_nth l j 0) by lia. simpl.
    by rewrite Nat.add_comm.
  - rewrite (lookup_ge_None_2 (seq _ _)) by (rewrite length_seq; lia).
    destruct (l !! (1 + j)%nat); done.
Qed.

Lemma W_centers_of_eq mu sigma W_nns :
  length W_nns = 20%nat ->
  W_centers_of mu sigma W_nns = piecewise_points mu sigma W_nns.
Proof.
  intros HW. unfold W_centers_of, piecewise_points, np.divs, np.add.
  rewrite zip_from1_butlast, HW, <- list_fmap_compose. reflexivity.
Qed.

Lemma log_posterior_W_of_eq mu sigma W_nns log_L :
  length W_nns = length log_L ->
  log_posterior_W_of mu sigma W_nns log_L = Ok (node_log_posterior mu sigma W_nns log_L).
Proof.
  intros Hl. unfold log_posterior_W_of, npr.add, npr.broadcast.
  unfold np.muls, np.square, np.subs. rewrite !length_fmap, decide_True by done.
  f_equal. unfold node_log_posterior.
  rewrite <- !list_fmap_compose, zip_with_fmap_l. reflexivity.
Qed.

Lemma log_F_W_of_eq (self : t) W_nns lp :
  DEG_GAUSS_HERMITE self = 20%nat -> length W_nns = 20%nat -> length lp = 20%nat ->
  log_F_W_of self W_nns lp = Ok (piecewise_log_cdf W_nns lp).
Proof.
  intros Hd HW Hlp. unfold log_F_W_of, log_posterior_avg_of, np.sub.
  rewrite zip_from1_butlast, HW, Hd. change (20 - 1)%nat with 19%nat.
  unfold npr.add, npr.broadcast, np.subs.
  rewrite !length_fmap, decide_True by done. cbn [mbind result_bind].
  f_equal. unfold piecewise_log_cdf, np.upto, np.Inf.
  assert (Hmass :
    zip_with PrimFloat.add
      ((fun v => v - np_log 2) <$> ((fun i => logsumexp (np.pair_at i lp)) <$> seq 0 19))
      (np_log <$> ((fun k => nth (k + 1) W_nns 0 - nth k W_nns 0) <$> seq 0 19)) =
    bin_log_mass W_nns lp <$> seq 0 19).
  { rewrite <- !list_fmap_compose, zip_with_fmap_l, zip_with_fmap_r, zip_with_diag.
    apply list_fmap_ext. intros i k [-> Hk]%lookup_seq. simpl.
    unfold bin_log_mass, bin_log_density. by rewrite pair_at_nth by lia. }
  rewrite Hmass. reflexivity.
Qed.

(** C2 as amended.  When the exact collapsed update has set
    [A[n_pre, n_post] = 1], it draws [W[n_pre, n_post]] by interpolating
    [log(u)], [u] uniform, against a log CDF over the 19 bins between
    adjacent quadrature nodes: the log density of a bin is the logsumexp of
    the log posterior at its two nodes minus [log 2], its log mass adds the
    log of its width, the masses are normalised by their logsumexp, and the
    log CDF is [-inf], the logsumexp of the first [i] masses for
    [i = 1..19], and [0].  The 21 points it is interpolated against are
    [mu - 6 sigma], the 19 midpoints of adjacent nodes, and [mu + 6 sigma]:
    the two end points lie six sigma from the prior mean. *)
Theorem weight_posterior_sampling
    (self : t) n_pre n_post mu sigma W_nns log_L (x x' : State Glm) Ib Is Ii
    (A : ndarray Z) (e e' : Eff G) :
  DEG_GAUSS_HERMITE self = 20%nat ->
  length W_nns = 20%nat -> length log_L = 20%nat ->
  graph_A (graph (net x)) = Some A ->
  get2 A n_pre n_post = Ok 1%Z ->
  resample_W self n_pre n_post mu sigma W_nns log_L x Ib Is Ii e = Ok (x', e') ->
  let lp := node_log_posterior mu sigma W_nns log_L in
  let log_F_W := piecewise_log_cdf W_nns lp in
  let W_centers := piecewise_points mu sigma W_nns in
  let u := (rand (rng e)).1 in
  length log_F_W = 21%nat /\ length W_centers = 21%nat /\
  W_centers_of mu sigma W_nns = W_centers /\
  log_posterior_W_of mu sigma W_nns log_L = Ok lp /\
  log_F_W_of self W_nns lp = Ok log_F_W /\
  rng e' = (rand (rng e)).2 /\
  graph_A (graph (net x')) = Some A /\
  exists W' k,
    weights_W (weights (net x')) = Some W' /\
    offset2 (shape A) n_pre n_post = Some k /\
    data W' !! k = Some (np_interp (np_log u) log_F_W W_centers).
Proof.
  intros Hd HW HL HA Ha Hrun lp log_F_W W_centers u.
  assert (Hlp : length lp = 20%nat).
  { unfold lp, node_log_posterior. rewrite length_zip_with. lia. }
  split; [reflexivity|]. split; [reflexivity|].
  split; [by apply W_centers_of_eq|].
  split; [apply log_posterior_W_of_eq; lia|].
  split; [by apply log_F_W_of_eq|].
  revert Hrun. unfold resample_W.
  rewrite (lift_bind (x_A x) A) by (unfold x_A; by rewrite HA).
  rewrite (lift_bind _ _ _ _ Ha). rewrite decide_True by done.
  intros Hrun.
  apply M_bind_Ok in Hrun as (x1 & e1 & Hx1 & Hrun).
  rewrite log_posterior_W_of_eq in Hx1 by lia.
  rewrite (lift_bind _ _ _ _ eq_refl) in Hx1. cbv beta in Hx1.
  rewrite log_F_W_of_eq in Hx1 by (done || exact Hlp).
  rewrite (lift_bind _ _ _ _ eq_refl) in Hx1. cbv beta in Hx1.
  rewrite W_centers_of_eq in Hx1 by done.
  fold lp log_F_W W_centers in Hx1.
  apply M_bind_Ok in Hx1 as (u' & e0 & Hu & Hx1).
  unfold draw in Hu. destruct (rand (rng e)) as [u0 g0] eqn:Hr.
  injection Hu as <- <-.
  apply M_bind_Ok in Hx1 as (x2 & e2 & Hx2 & Hx1).
  apply lift_Ok in Hx2 as [Hx2 ->].
  apply M_bind_Ok in Hx1 as (Wv & e3 & HWv & Hx1).
  apply lift_Ok in HWv as [HWv ->].
  apply M_bind_Ok in Hx1 as (w & e4 & Hw & Hx1).
  apply lift_Ok in Hw as [Hw ->].
  apply M_bind_Ok in Hx1 as ([ll x3] & e5 & Hll & Hx1).
  apply lift_Ok in Hll as [Hll ->].
  apply _glm_ll_A_Ok in Hll as [-> _].
  destruct (np.isfinite ll); [|discriminate]. injection Hx1 as <- <-.
  apply M_bind_Ok in Hrun as (Wv' & e6 & HWv' & Hrun).
  apply lift_Ok in HWv' as [HWv' ->]. injection Hrun as <- <-.
  apply W_assign_Ok in Hx2 as (W0 & k & HW0 & Hk & Hlt & Hsz & ->).
  unfold W_view, x_W in HWv'. simpl in HWv'. apply reshape_Ok in HWv' as [-> _].
  simpl. split; [reflexivity|]. split; [exact HA|].
  eexists _, k. split; [reflexivity|]. split; [exact Hk|].
  simpl. unfold u. by rewrite list_lookup_insert_eq.
Qed.

End weight_posterior.

(** ** The variant that proposes from the prior *)

Section with_prior_claims.

Context `{NumLib} {G : Type} `{RandomState G} {Glm : Type} `{Population Glm}.

Import CollapsedGibbsNetworkColumnUpdate.

Local Open Scope float_scope.

Lemma M_bind_eq {T U} (m : M G T) (f : T -> M G U) e v e' :
  m e = Ok (v, e') -> (m ≫= f) e = f v e'.
Proof. intros Hm. unfold mbind, M_bind. by rewrite Hm. Qed.

Lemma draw_eq {T} (f : G -> T * G) (e : Eff G) :
  draw f e = Ok ((f (rng e)).1, mk_Eff (f (rng e)).2 (stops e)).
Proof. unfold draw. by destruct (f (rng e)). Qed.

(** C5 as amended.  In the variant that proposes [A[n_pre, n_post]] from
    the prior, a proposal equal to the current indicator leaves [A] as it
    is; when that indicator is 1, [W[n_pre, n_post]] is drawn anew by
    interpolating [log(u)] against the log CDF of the normalised quadrature
    summands over the nodes [w_k]; when it is 0, [W[n_pre, n_post]] keeps
    its value and only the proposal's uniform number is consumed. *)
Theorem with_prior_unchanged_indicator
    N (self : t) n_pre n_post (x : State Glm) Ib Is Ii p_A mu sigma p A W0 a e :
  from_init self ->
  well_shaped N x -> (n_pre < N)%nat -> (n_post < N)%nat ->
  select_prior self n_pre n_post = Ok (mu, sigma) ->
  get2 p_A n_pre n_post = Ok p ->
  graph_A (graph (net x)) = Some A ->
  weights_W (weights (net x)) = Some W0 ->
  get2 A n_pre n_post = Ok a ->
  let u := (rand (rng e)).1 in
  let g1 := (rand (rng e)).2 in
  let prop_A := if np_log u <? np_log p then 1%Z else 0%Z in
  let w := (fun x_k => np.sqrt 2 * sigma * x_k + mu) <$> hermgauss20.1 in
  let log_L := zip_with weighted_term_with_prior
                 (logL_at x n_pre n_post Ib Is Ii <$> w) hermgauss20.2 in
  let log_G := logsumexp log_L in
  let u2 := (rand g1).1 in
  let sample := np_interp (np_log u2) (log_F_W_with_prior self log_L log_G) w in
  a = prop_A ->
  (a = 0%Z ->
   _collapsed_sample_AW_with_prior self n_pre n_post x Ib Is Ii p_A e =
   Ok (set_W x (mk_ndarray [length (data W0)] (data W0)), mk_Eff g1 (stops e))) /\
  (a = 1%Z ->
   exists k, offset2 (shape A) n_pre n_post = Some k /\
   _collapsed_sample_AW_with_prior self n_pre n_post x Ib Is Ii p_A e =
   Ok (set_W x (mk_ndarray [length (data W0)] (<[k := sample]> (data W0))),
       mk_Eff (rand g1).2 (stops e))).
Proof.
  intros (Hdeg & Habs & Hwts) Hx Hi Hj Hprior Hp HA HW0 Ha
         u g1 prop_A w log_L log_G u2 sample Hprop.
  destruct (well_shaped_W_view N x A Hx HA) as (W0' & HW0' & HWv).
  rewrite HW0 in HW0'. injection HW0' as <-.
  pose proof Hx as Hx'. unfold well_shaped in Hx'. rewrite HA, HW0 in Hx'.
  destruct Hx' as (HshA & HlA & HlW & Hgl).
  destruct (offset2_lt N n_pre n_post Hi Hj) as (k & Hk & Hlt).
  rewrite <- HshA in Hk.
  destruct (lookup_lt_is_Some_2 (data W0) k) as [w0 Hw0]; [lia|].
  assert (Hsz : size_of (shape A) = length (data W0)).
  { rewrite HshA. simpl. lia. }
  unfold _collapsed_sample_AW_with_prior.
  rewrite (lift_bind _ _ _ _ Hprior). cbv beta iota.
  rewrite (lift_bind (x_A x) A) by (unfold x_A; by rewrite HA). cbv beta.
  rewrite (lift_bind _ _ _ _ HWv). cbv beta.
  rewrite (lift_bind _ _ _ _ Hp). cbv beta.
  rewrite (M_bind_eq _ _ _ _ _ (draw_eq rand e)). cbv beta.
  fold u g1. fold prop_A.
  rewrite (lift_bind _ _ _ _ Ha). cbv beta.
  rewrite (lift_bind (get2 _ n_pre n_post) w0) by (by apply (get2_eq _ _ _ k)).
  cbv beta.
  rewrite W_nns_of_eq, Habs. fold w.
  rewrite decide_False by (intros Hne; by apply Hne).
  split.
  - intros Ha0. rewrite decide_False by (intros Hne; by apply Hne).
    erewrite M_bind_eq by reflexivity.
    rewrite (lift_bind _ _ _ _ HWv). reflexivity.
  - intros Ha1. exists k. split; [done|].
    rewrite decide_True by (rewrite Ha1; done).
    assert (Hq : quadrature_with_prior self n_pre n_post Ib Is Ii w x = Ok (log_L, x)).
    { unfold log_L. rewrite <- Hwts. apply (quadrature_with_prior_eq N); try done;
        rewrite ?Hwts, Hdeg; reflexivity. }
    set (x1 := set_W x (mk_ndarray (shape W0) (<[k:=sample]> (data W0)))).
    assert (Hbranch :
      ('(log_L, x) ← lift (quadrature_with_prior self n_pre n_post Ib Is Ii w x);
       resample_W_with_prior self n_pre n_post A w log_L (logsumexp log_L) x)
        (mk_Eff g1 (stops e)) = Ok (x1, mk_Eff (rand g1).2 (stops e))).
    { rewrite (lift_bind _ _ _ _ Hq). cbv beta iota. fold log_G.
      unfold resample_W_with_prior.
      rewrite (M_bind_eq _ _ _ _ _ (draw_eq rand _)). cbv beta. simpl rng.
      fold u2. fold sample. unfold lift.
      by rewrite (W_assign_total _ _ _ _ _ W0 k) by (done || lia). }
    rewrite (M_bind_eq _ _ _ _ _ Hbranch).
    rewrite (lift_bind _ (mk_ndarray (shape A) (<[k:=sample]> (data W0)))).
    + unfold mret, M_ret, ravel. simpl. by rewrite length_insert.
    + apply (W_view_eq x1 A (mk_ndarray (shape W0) (<[k:=sample]> (data W0))));
        [done|]. etrans; [exact Hsz|]. symmetry. apply length_insert.
Qed.

End with_prior_claims.

(** ** Shapes and frames of the update rules *)

Section invariants.

Context `{NumLib} {G : Type} `{RandomState G} `{Hmc G} {Glm : Type} `{Population Glm}.

Local Open Scope float_scope.












Import CollapsedGibbsNetworkColumnUpdate.










Lemma call_hmc_Ok {S : Type} nll grad step n q0 ad acc (s : S) (e : Eff G) r e' :
  call_hmc nll grad step n q0 ad acc s e = Ok (r, e') ->
  exists g, hmc S nll grad step n q0 ad acc s (rng e) = Ok (r, g) /\
            e' = mk_Eff g (stops e).
Proof.
  unfold call_hmc. intros Hr. bind_inv Hr rg Hrg. destruct rg as [r0 g].
  injection Hr as <- <-. eauto.
Qed.

(** The GLM update writes the record of unit [n] and nothing else. *)
Lemma hmc_glm_update_Ok (self self' : HmcGlmUpdate.t) (x x' : State Glm) n e e' :
  HmcGlmUpdate.update self x n e = Ok (self', x', e') ->
  net x' = net x /\ length (glms x') = length (glms x) /\
  (forall m, m <> n -> glms x' !! m = glms x !! m) /\
  (n < length (glms x))%nat /\ stops e' = stops e.
Proof.
  unfold HmcGlmUpdate.update. intros Hrun.
  apply M_bind_Ok in Hrun as (xn & e1 & Hxn & Hrun).
  apply lift_Ok in Hxn as [Hxn ->].
  apply M_bind_Ok in Hrun as ([[[x_glm step] acc] xn'] & e2 & Hh & Hrun).
  apply call_hmc_Ok in Hh as (g & _ & ->).
  apply M_bind_Ok in Hrun as (glms' & e3 & Hg & Hrun).
  apply lift_Ok in Hg as [Hg ->]. injection Hrun as <- <- <-.
  unfold npr.setitem in Hg. case_decide as Hn; [|discriminate].
  injection Hg as <-. simpl.
  split; [done|]. split; [by rewrite length_insert|]. split; [|done].
  intros m Hm. by rewrite list_lookup_insert_ne.
Qed.









(** C9. The GLM update of unit [n] writes [x['glms'][n]] only: the network
    variables, [A] and [W] among them, and the record of every other unit
    are those of the state it was given. *)
Theorem hmc_glm_update_frame
    (self self' : HmcGlmUpdate.t) (x x' : State Glm) n (e e' : Eff G) :
  HmcGlmUpdate.update self x n e = Ok (self', x', e') ->
  net x' = net x /\
  graph_A (graph (net x')) = graph_A (graph (net x)) /\
  weights_W (weights (net x')) = weights_W (weights (net x)) /\
  length (glms x') = length (glms x) /\
  (forall m, m <> n -> glms x' !! m = glms x !! m).
Proof.
  intros (Hnet & Hlen & Hother & _)%hmc_glm_update_Ok.
  rewrite Hnet. auto.
Qed.

End invariants.

(** ** The trajectory of [gibbs_sample] *)

Section trajectory.

Context `{NumLib} {G : Type} `{RandomState G} `{Hmc G} {Glm : Type} `{Population Glm}.

(** One turn of the loop appends one fresh copy of the swept state, and
    leaves the copies made before as they are. *)
Lemma gibbs_iteration_Ok smpl (st st' : Loop Glm) (e e' : Eff G) :
  gibbs_iteration smpl st e = Ok (st', e') ->
  copies (heap st') = copies (heap st) ++ [live (heap st')] /\
  x_smpls st' = x_smpls st ++ [S (length (copies (heap st)))].
Proof.
  unfold gibbs_iteration. intros Hrun.
  apply M_bind_Ok in Hrun as ([pus x1] & e1 & _ & Hrun).
  apply M_bind_Ok in Hrun as ([sus x2] & e2 & _ & Hrun).
  unfold deepcopy_live in Hrun. simpl in Hrun. by injection Hrun as <- _.
Qed.

Lemma loop_inv_step smpl (st st' : Loop Glm) (e e' : Eff G) :
  loop_inv st -> gibbs_iteration smpl st e = Ok (st', e') -> loop_inv st'.
Proof.
  intros [Hx _] [Hc Hs]%gibbs_iteration_Ok. split.
  - rewrite Hs, Hx, Hc, length_app. cbn [length]. rewrite Nat.add_1_r.
    symmetry. apply (seq_S (S (length (copies (heap st)))) 0).
  - right. rewrite Hc. apply last_snoc.
Qed.

Lemma for_in_M_count {S : Type} (P : nat -> S -> Prop) (body : nat -> S -> M G S) :
  (forall i s e s' e', P i s -> body i s e = Ok (s', e') -> P (Datatypes.S i) s') ->
  forall n i s e s' e',
    P i s -> for_in (seq i n) body s e = Ok (s', e') -> P (i + n)%nat s'.
Proof.
  intros Hbody. induction n as [|n IH]; intros i s e s' e' HP; simpl.
  - intros [= <- _]. by rewrite Nat.add_0_r.
  - intros (s1 & e1 & Hs1 & Hl)%M_bind_Ok.
    rewrite <- Nat.add_succ_comm. eauto.
Qed.

Lemma gibbs_loop_inv N_samples (x0 : State Glm) (e e' : Eff G) (st : Loop Glm) :
  gibbs_loop N_samples x0 e = Ok (st, e') ->
  loop_inv st /\ length (copies (heap st)) = N_samples.
Proof.
  unfold gibbs_loop. destruct initialize_updates as [sus pus].
  intros Hrun.
  apply (for_in_M_count
           (fun i st => loop_inv st /\ length (copies (heap st)) = i)) in Hrun; [done| |].
  - intros i s e0 s' e0' [Hi Hlen] Hstep. split; [by eapply loop_inv_step|].
    apply gibbs_iteration_Ok in Hstep as [-> _]. rewrite length_app. simpl. lia.
  - split; [|done]. split; [done | by left].
Qed.

(** C7, as the code behaves.  The trajectory holds [N_samples + 1]
    addresses; the entries after the first are the deep copies, one per
    sweep, but the first entry is the state object itself: read when
    [gibbs_sample] returns, it shows the state after the last sweep, the same
    as the last entry, and not the state the chain started from. *)
Theorem gibbs_sample_first_entry_is_live_state
    N_samples (x0 : State Glm) (e e' : Eff G) (st : Loop Glm) :
  gibbs_loop N_samples x0 e = Ok (st, e') ->
  length (trajectory st) = S N_samples /\
  trajectory st !! 0%nat = Some (Some (live (heap st))) /\
  (forall k, (k < N_samples)%nat ->
     trajectory st !! S k = Some (copies (heap st) !! k)) /\
  (N_samples <> 0%nat ->
     trajectory st !! N_samples = trajectory st !! 0%nat).
Proof.
  intros [[Hx Hlast] Hlen]%gibbs_loop_inv. unfold trajectory.
  rewrite Hx, Hlen. split; [by rewrite length_fmap, length_seq|].
  split; [done|]. split.
  - intros k Hk. rewrite list_lookup_fmap.
    by rewrite (proj2 (lookup_seq 0 (S N_samples) (S k) (S k))) by (split; [done|lia]).
  - intros Hn. destruct N_samples as [|n]; [done|].
    rewrite list_lookup_fmap.
    rewrite (proj2 (lookup_seq 0 (S (S n)) (S n) (S n))) by (split; [done|lia]).
    simpl. destruct Hlast as [Hnil|Hlast].
    + rewrite Hnil in Hlen. discriminate.
    + rewrite last_lookup, Hlen in Hlast. simpl in Hlast. by rewrite Hlast.
Qed.

End trajectory.

(** * Runs on the concrete populations *)

Module DemoRuns.

Import CollapsedGibbsNetworkColumnUpdate Demo.

Local Open Scope float_scope.

#[local] Existing Instance Demo.popn.

Lemma x_well_shaped : well_shaped 2 x.
Proof. vm_compute. repeat split. Qed.



Lemma self_from_init : from_init self.
Proof. repeat split. Qed.

Lemma lt_0_2 : (0 < 2)%nat.
Proof. lia. Qed.

Lemma lt_1_2 : (1 < 2)%nat.
Proof. lia. Qed.

Lemma collapsed_log_G_witness :
  exists logL,
    quadrature self 0 1 [] [] []
      ((fun x_k => np.sqrt 2 * 1 * x_k + 0) <$> hermgauss20.1) x =
    Ok (logL, zip_with weighted_term logL hermgauss20.2, x) /\
    length logL = 20%nat.
Proof.
  pose proof (collapsed_log_G_is_gauss_hermite 2 self 0 1 x [] [] [] p_A 0 1 0.5
                self_from_init x_well_shaped lt_0_2 lt_1_2 eq_refl eq_refl) as HH.
  cbv zeta in HH. destruct HH as (_ & Hlen & Hq & _).
  eexists. split; [exact Hq | exact Hlen].
Defined.


Lemma glm_ll_probes_witness :
  exists ll, _glm_ll_A 0 1 0.75 x [] [] [] = Ok (ll, x) /\
             ll_edge_present x 0 1 0.75 [] [] [] = Some ll.
Proof.
  exact (proj1 (proj2 (proj2 (glm_ll_probes_preserve_state 2 0 1 0.75 x [] [] []))
                  x_well_shaped lt_0_2 lt_1_2)).
Defined.

(** The hypotheses of [weight_posterior_sampling] hold on a run. *)
Lemma weight_posterior_sampling_witness :
  exists x' e' W',
    resample_W self 0 1 0 1 (W_nns_of self 0 1) (np.zeros 20) x [] [] [] e0 = Ok (x', e') /\
    weights_W (weights (net x')) = Some W' /\
    data W' !! 1%nat =
      Some (np_interp (np_log (rand (rng e0)).1)
              (piecewise_log_cdf (W_nns_of self 0 1)
                 (node_log_posterior 0 1 (W_nns_of self 0 1) (np.zeros 20)))
              (piecewise_points 0 1 (W_nns_of self 0 1))).
Proof.
  destruct (resample_W self 0 1 0 1 (W_nns_of self 0 1) (np.zeros 20) x [] [] [] e0)
    as [[x' e']|err] eqn:Hrun; [|vm_compute in Hrun; discriminate].
  pose proof (weight_posterior_sampling self 0 1 0 1 (W_nns_of self 0 1) (np.zeros 20)
                x x' [] [] [] (mk_ndarray [2; 2]%nat [0; 1; 0; 0]%Z) e0 e'
                eq_refl eq_refl eq_refl eq_refl eq_refl Hrun) as HH.
  cbv zeta in HH.
  destruct HH as (_ & _ & _ & _ & _ & _ & _ & W' & k & HW' & Hk & Hs).
  injection Hk as <-. exists x', e', W'. auto.
Defined.

(** C2, the counterexample.  With [mu = 0] and [sigma = 1] the first and
    last interpolation points are [-6] and [6]: they are not the outermost
    nodes moved out by six sigma, and they lie inside the range of the
    nodes, whose outermost ones are near [-7.62] and [7.62]. *)
Lemma end_points_are_not_beyond_the_outermost_nodes :
  let w := W_nns_of __init__ 0 1 in
  let c := W_centers_of 0 1 w in
  (nth 0 c 0 =? -6) = true /\ (nth 20 c 0 =? 6) = true /\
  (nth 0 c 0 =? nth 0 w 0 - 6 * 1) = false /\
  (nth 20 c 0 =? nth 19 w 0 + 6 * 1) = false /\
  (nth 0 w 0 <? nth 0 c 0) = true /\ (nth 20 c 0 <? nth 19 w 0) = true.
Proof. vm_compute. repeat split. Qed.

(** C6, the counterexample.  This weight model has no refractory prior:
    the self-loop [(0, 0)] and the edge [(0, 1)] get the same pair. *)
Lemma self_loop_without_refractory_prior_uses_standard_pair :
  refractory_prior network_weights = None /\
  select_prior self 0 0 = Ok (0, 1) /\
  select_prior self 0 1 = Ok (0, 1).
Proof. repeat split. Qed.


Lemma hmc_glm_update_frame_witness :
  exists self' x' e',
    HmcGlmUpdate.update HmcGlmUpdate.__init__ x 0 e0 = Ok (self', x', e') /\
    net x' = net x /\ glms x' !! 1%nat = glms x !! 1%nat.
Proof.
  destruct (HmcGlmUpdate.update HmcGlmUpdate.__init__ x 0 e0)
    as [[[self' x'] e']|err] eqn:Hrun; [|vm_compute in Hrun; discriminate].
  exists self', x', e'. split; [reflexivity|].
  destruct (hmc_glm_update_frame _ _ _ _ _ _ _ Hrun) as (Hnet & _ & _ & _ & Hother).
  split; [exact Hnet|]. apply Hother. discriminate.
Defined.

(** C7, at a concrete input: after one sweep the first entry of the
    trajectory reads as the live state, whose [A] is no longer that of the
    initial state [x]. *)
Lemma first_entry_after_one_sweep :
  exists st e',
    gibbs_loop 1 x e0 = Ok (st, e') /\
    trajectory st !! 0%nat = Some (Some (live (heap st))) /\
    trajectory st !! 1%nat = trajectory st !! 0%nat /\
    graph_A (graph (net (live (heap st)))) <> graph_A (graph (net x)).
Proof.
  destruct (gibbs_loop 1 x e0) as [[st e']|err] eqn:Hrun;
    [|vm_compute in Hrun; discriminate].
  exists st, e'. split; [reflexivity|].
  destruct (gibbs_sample_first_entry_is_live_state 1 x e0 e' st Hrun)
    as (_ & H0 & _ & H1).
  split; [exact H0|]. split; [apply H1; discriminate|].
  vm_compute in Hrun. injection Hrun as <- _. vm_compute. discriminate.
Defined.

(** C5: an unchanged present edge has its weight drawn anew. *)
Lemma with_prior_unchanged_indicator_witness :
  exists k x' e',
    offset2 [2; 2]%nat 0 1 = Some k /\
    _collapsed_sample_AW_with_prior self_with_prior 0 1 x [] [] [] p_A e0 = Ok (x', e') /\
    rng e' = 2%nat.
Proof.
  pose proof (with_prior_unchanged_indicator 2 self_with_prior 0 1 x [] [] [] p_A 0 1 0.5
                (mk_ndarray [2; 2]%nat [0; 1; 0; 0]%Z)
                (mk_ndarray [4]%nat [0.5; 0.25; -0.5; 1]) 1%Z e0
                self_from_init x_well_shaped lt_0_2 lt_1_2
                eq_refl eq_refl eq_refl eq_refl eq_refl) as HH.
  cbv zeta in HH.
  destruct (proj2 (HH ltac:(vm_compute; reflexivity)) eq_refl) as (k & Hk & Hrun).
  exists k. eexists _, _. split; [exact Hk|]. split; [exact Hrun|]. reflexivity.
Defined.

End DemoRuns.

Module InfiniteLikelihoodRuns.

Import CollapsedGibbsNetworkColumnUpdate InfiniteLikelihood.

Local Open Scope float_scope.

#[local] Existing Instance InfiniteLikelihood.popn.


End InfiniteLikelihoodRuns.

Module NeverProposedRuns.

Import CollapsedGibbsNetworkColumnUpdate NeverProposed.

Local Open Scope float_scope.

#[local] Existing Instance NeverProposed.popn.

(** C5, the counterexample.  [A[0, 1]] is 0 and the proposal is 0: the
    indicator is unchanged, and so is [W[0, 1]]; the call returns the state
    it was given, having drawn the proposal's uniform number only. *)
Lemma unchanged_absent_edge_keeps_its_weight :
  _collapsed_sample_AW_with_prior self 0 1 x [] [] [] (graph_pA (net x))
    (mk_Eff 0%nat []) = Ok (x, mk_Eff 1%nat []).
Proof. vm_compute. reflexivity. Qed.

End NeverProposedRuns.

Module ImpossibleEdgeRuns.

Import CollapsedGibbsNetworkColumnUpdate ImpossibleEdge.

Local Open Scope float_scope.

#[local] Existing Instance ImpossibleEdge.popn.


End ImpossibleEdgeRuns.
